(** * Wallet: a shallow embedding of the payment service

    The development follows the Go package [wallet]:
    - [service.go]   : [Account], [Payment], the sentinel errors,
                       [getAccounts], [ListPayments], [SendPayment];
    - [endpoints.go] : [makeListPaymentsEndpoint], [paymentItem];
    - the transport file : [codeFrom], [encodeError].

    The Postgres database reached through pgx is modelled as explicit
    state: two tables, one sequence, an optional open transaction with
    its working copy of the tables, and a log of the calls made on the
    connection.  Every driver call can fail, as told by a [Faults]
    record. *)

From stdpp Require Import gmap strings list sorting.
From Stdlib Require Import ZArith Lia.
From Stdlib Require Import QArith Qpower.

Close Scope Q_scope.

(** ** Decimal numbers

    [decimal.Decimal] of github.com/shopspring/decimal, the type of
    balances and amounts: a big integer coefficient [value] and a
    power-of-ten exponent [exp]; the number denoted is
    [value * 10 ^ exp].  [Add] and [Sub] first bring both operands to
    the smaller exponent, which only multiplies a coefficient by a
    power of ten, and then add or subtract the coefficients.  The Go
    exponent is an [int32]; the smaller of two [int32] is one, so no
    operation used by the service leaves the range and the exponent is
    a plain [Z] here. *)
Module decimal.

Local Open Scope Z_scope.

Record Decimal := mkDecimal { value : Z; exp : Z }.

Definition rescale (d : Decimal) (e : Z) : Decimal :=
  if exp d =? e then d
  else
    let diff := Z.abs (e - exp d) in
    let expScale := 10 ^ diff in
    if exp d <? e
    then {| value := Z.quot (value d) expScale; exp := e |}
    else {| value := value d * expScale; exp := e |}.

Definition RescalePair (d1 d2 : Decimal) : Decimal * Decimal :=
  if exp d1 =? exp d2 then (d1, d2)
  else
    let baseScale := Z.min (exp d1) (exp d2) in
    if negb (baseScale =? exp d1)
    then (rescale d1 baseScale, d2)
    else (d1, rescale d2 baseScale).

Definition Add (d d2 : Decimal) : Decimal :=
  let '(rd, rd2) := RescalePair d d2 in
  {| value := value rd + value rd2; exp := exp rd |}.

Definition Sub (d d2 : Decimal) : Decimal :=
  let '(rd, rd2) := RescalePair d d2 in
  {| value := value rd - value rd2; exp := exp rd |}.

(** [Cmp] returns -1, 0 or 1. *)
Definition Cmp (d d2 : Decimal) : Z :=
  if exp d =? exp d2 then Z.sgn (value d - value d2)
  else
    let '(rd, rd2) := RescalePair d d2 in
    Z.sgn (value rd - value rd2).

Definition Equal (d d2 : Decimal) : bool := Cmp d d2 =? 0.

Definition Sign (d : Decimal) : Z := Z.sgn (value d).
Definition IsPositive (d : Decimal) : bool := Sign d =? 1.
Definition IsNegative (d : Decimal) : bool := Sign d =? -1.

Definition NewFromInt (n : Z) : Decimal := {| value := n; exp := 0 |}.

(** The coefficient [d] has when written with exponent [e]; exact
    whenever [e <= exp d]. *)
Definition coeff_at (e : Z) (d : Decimal) : Z := value d * 10 ^ (exp d - e).

End decimal.

Import decimal.

(** ** Entities ([service.go]) *)

Record Account := mkAccount {
  ID : string;
  Balance : Decimal;
  Currency : string }.

Record Payment := mkPayment {
  PaymentID : Z;
  FromAccountID : string;
  ToAccountID : string;
  Amount : Decimal }.

(** ** Errors

    The package's sentinel errors are compared by identity in Go.  An
    error value made anywhere else (by pgx, by the context) is none of
    them whatever its text: it is an [ErrDriver].  A Go [error] may be
    [nil], hence [option error] where the source has [error]. *)
Inductive error :=
| ErrAccountNotFound
| ErrAccountNotSpecified
| ErrCurrencyMismatch
| ErrInsufficientBalance
| ErrInvalidAmount
| ErrSameAccount
| ErrMalformedJSON
| ErrDriver (msg : string).

Definition Error (e : error) : string :=
  match e with
  | ErrAccountNotFound => "account(s) not found"
  | ErrAccountNotSpecified => "two accounts must be specified"
  | ErrCurrencyMismatch => "accounts have different currencies"
  | ErrInsufficientBalance => "insufficient balance"
  | ErrInvalidAmount => "invalid amount"
  | ErrSameAccount => "cannot send a payment to the same account"
  | ErrMalformedJSON => "unable to parse request"
  | ErrDriver msg => msg
  end.

Inductive result (A : Type) :=
| Ok (a : A)
| Err (e : error).
Arguments Ok {A} a.
Arguments Err {A} e.

(** ** The database

    [init-db.sh] creates [accounts (id TEXT PRIMARY KEY, balance
    NUMERIC, currency TEXT)] and [payments (id SERIAL PRIMARY KEY,
    from_account_id, to_account_id, amount)].  A table is the list of
    its rows; [payments_id_seq] is the last value handed out by the
    sequence behind [SERIAL].  The primary key of [accounts] is the
    predicate [pk_accounts], kept by every statement the service
    runs.  An unconstrained [NUMERIC] column holds the number written
    to it exactly; a row keeps the [Decimal] as it was written, and
    balances are compared with [Equal], which does not tell two
    writings of one number apart. *)
Record DB := mkDB {
  accounts : list Account;
  payments : list Payment;
  payments_id_seq : Z }.

Definition pk_accounts (d : DB) : Prop := NoDup (ID <$> accounts d).

(** The working copy of the tables inside an open transaction. *)
Record Tx := mkTx {
  tx_accounts : list Account;
  tx_payments : list Payment }.

(** Calls made on the connection, in order, and the row locks taken. *)
Inductive event :=
| EvBegin
| EvQuery (id1 id2 : string)
| EvLock (id : string)
| EvUpdate (balance : Decimal) (id : string)
| EvInsert (from to : string) (amount : Decimal)
| EvCommit
| EvRollback.

Record World := mkWorld {
  db : DB;
  tx : option Tx;
  trace : list event }.

(** Which driver calls of one service call fail, and with what text.
    [next_stop = Some k]: [rows.Next()] reports the end after [k] rows
    (the code never looks at [rows.Err()]).  [scan_err = Some (i, _)]:
    [rows.Scan] fails on row [i]. *)
Record Faults := mkFaults {
  begin_err : option string;
  query_err : option string;
  next_stop : option nat;
  scan_err : option (nat * string);
  exec_from_err : option string;
  exec_to_err : option string;
  exec_insert_err : option string;
  commit_err : option string }.

Definition no_faults : Faults :=
  mkFaults None None None None None None None None.

(** ** The monad of service code: state and errors *)

Definition M (A : Type) : Type := World → result A * World.

Definition ret {A} (a : A) : M A := λ w, (Ok a, w).
Definition fail {A} (e : error) : M A := λ w, (Err e, w).
Definition bind {A B} (m : M A) (k : A → M B) : M B :=
  λ w, match m w with
       | (Ok a, w') => k a w'
       | (Err e, w') => (Err e, w')
       end.
Definition lift {A} (r : result A) : M A := λ w, (r, w).

Notation "'do' x <- m ; k" := (bind m (λ x, k))
  (at level 10, x name, m at level 100, k at level 200,
   format "'[v' 'do'  x  <-  m ; '/' k ']'").
Notation "'do_' m ; k" := (bind m (λ _, k))
  (at level 10, m at level 100, k at level 200,
   format "'[v' 'do_'  m ; '/' k ']'").

(** [defer f(); body]: [f] runs when [body] returns, whatever it
    returns, and what [f] returns is dropped. *)
Definition defer {A} (cleanup : World → World) (body : M A) : M A :=
  λ w, let '(r, w') := body w in (r, cleanup w').

Definition log (e : event) : M unit :=
  λ w, (Ok (), mkWorld (db w) (tx w) (trace w ++ [e])).

Definition driver_call (f : option string) : M unit :=
  match f with
  | Some msg => fail (ErrDriver msg)
  | None => ret ()
  end.

(** ** SQL statements *)

Definition by_id (a b : Account) : Prop := String.le (ID a) (ID b).
Global Instance by_id_dec a b : Decision (by_id a b).
Proof. unfold by_id, String.le. apply _. Defined.

Definition by_payment_id (p q : Payment) : Prop :=
  (PaymentID p ≤ PaymentID q)%Z.
Global Instance by_payment_id_dec p q : Decision (by_payment_id p q).
Proof. unfold by_payment_id. apply _. Defined.

(** [SELECT id, balance, currency FROM accounts
     WHERE id = $1 OR id = $2 ORDER BY id] *)
Definition select_accounts (id1 id2 : string) (t : list Account)
  : list Account :=
  merge_sort by_id (filter (λ a, ID a = id1 ∨ ID a = id2) t).

(** [UPDATE accounts SET balance = $1 WHERE id = $2] *)
Definition update_balance (balance : Decimal) (id : string)
  (t : list Account) : list Account :=
  (λ a, if decide (ID a = id) then mkAccount (ID a) balance (Currency a)
        else a) <$> t.

(** [SELECT id, from_account_id, to_account_id, amount
     FROM payments ORDER BY id] *)
Definition select_payments (t : list Payment) : list Payment :=
  merge_sort by_payment_id t.

(** A row as [rows.Scan] sees it. *)
Definition account_row : Type := string * Decimal * string.
Definition payment_row : Type := Z * string * string * Decimal.

Definition row_of_account (a : Account) : account_row :=
  (ID a, Balance a, Currency a).
Definition row_of_payment (p : Payment) : payment_row :=
  (PaymentID p, FromAccountID p, ToAccountID p, Amount p).

(** What the cursor hands over before [rows.Next()] says stop. *)
Definition delivered {A} (φ : Faults) (rows : list A) : list A :=
  match next_stop φ with
  | Some k => take k rows
  | None => rows
  end.

(** ** pgx: pool and transaction *)

(** [s.db.Begin(ctx)] *)
Definition db_Begin (φ : Faults) : M unit :=
  do_ log EvBegin;
  do_ driver_call (begin_err φ);
  λ w, (Ok (), mkWorld (db w)
                 (Some (mkTx (accounts (db w)) (payments (db w))))
                 (trace w)).

Definition tx_closed : error := ErrDriver "tx is closed".

(** [tx.Query(ctx, "SELECT ... FOR UPDATE", id1, id2)]: the rows come
    sorted and each one is locked as it is produced; a row the cursor
    never produces is not locked. *)
Definition tx_Query (φ : Faults) (id1 id2 : string) : M (list account_row) :=
  do_ log (EvQuery id1 id2);
  do_ driver_call (query_err φ);
  λ w, match tx w with
       | None => (Err tx_closed, w)
       | Some t =>
           let rows := select_accounts id1 id2 (tx_accounts t) in
           (Ok (delivered φ (row_of_account <$> rows)),
            mkWorld (db w) (tx w)
              (trace w ++ (EvLock ∘ ID <$> delivered φ rows)))
       end.

(** [tx.Exec(ctx, "UPDATE accounts SET balance = $1 WHERE id = $2", ..)] *)
Definition tx_Exec_update (f : option string) (balance : Decimal)
  (id : string) : M unit :=
  do_ log (EvUpdate balance id);
  do_ driver_call f;
  λ w, match tx w with
       | None => (Err tx_closed, w)
       | Some t =>
           (Ok (), mkWorld (db w)
                     (Some (mkTx (update_balance balance id (tx_accounts t))
                                 (tx_payments t)))
                     (trace w))
       end.

(** [tx.Exec(ctx, "INSERT INTO payments (from_account_id, to_account_id,
    amount) VALUES ($1, $2, $3)", ..)].  The identifier comes from the
    sequence, and a sequence is not rolled back. *)
Definition tx_Exec_insert (f : option string) (from to : string)
  (amount : Decimal) : M unit :=
  do_ log (EvInsert from to amount);
  do_ driver_call f;
  λ w, match tx w with
       | None => (Err tx_closed, w)
       | Some t =>
           let id := (payments_id_seq (db w) + 1)%Z in
           (Ok (), mkWorld (mkDB (accounts (db w)) (payments (db w)) id)
                     (Some (mkTx (tx_accounts t)
                                 (tx_payments t ++ [mkPayment id from to amount])))
                     (trace w))
       end.

(** [tx.Commit(ctx)]: the working copy becomes the database, or, when
    the commit fails, is dropped. *)
Definition tx_Commit (φ : Faults) : M unit :=
  do_ log EvCommit;
  λ w, match tx w with
       | None => (Err tx_closed, w)
       | Some t =>
           match commit_err φ with
           | Some msg => (Err (ErrDriver msg), mkWorld (db w) None (trace w))
           | None =>
               (Ok (), mkWorld (mkDB (tx_accounts t) (tx_payments t)
                                  (payments_id_seq (db w)))
                         None (trace w))
           end
       end.

(** [tx.Rollback(ctx)]: drops the working copy; nothing to do after a
    commit. *)
Definition tx_Rollback (w : World) : World :=
  mkWorld (db w) None (trace w ++ [EvRollback]).

(** [pool.Query(ctx, "SELECT ... FROM payments ORDER BY id")] *)
Definition db_Query_payments (φ : Faults) : M (list payment_row) :=
  do_ driver_call (query_err φ);
  λ w, (Ok (delivered φ (row_of_payment <$> select_payments (payments (db w)))), w).

(** ** [service.go] *)

Fixpoint getAccounts_loop (φ : Faults) (i : nat) (rows : list account_row)
  (accounts : list Account) : result (list Account) :=
  match rows with
  | [] => Ok accounts
  | (id, balance, currency) :: rows' =>
      match scan_err φ with
      | Some (j, msg) =>
          if decide (i = j) then Err (ErrDriver msg)
          else getAccounts_loop φ (S i) rows'
                 (accounts ++ [mkAccount id balance currency])
      | None =>
          getAccounts_loop φ (S i) rows'
            (accounts ++ [mkAccount id balance currency])
      end
  end.

Definition getAccounts (φ : Faults) (rows : list account_row)
  : result (list Account) :=
  getAccounts_loop φ 0 rows [].

Fixpoint ListPayments_loop (φ : Faults) (i : nat) (rows : list payment_row)
  (payments : list Payment) : result (list Payment) :=
  match rows with
  | [] => Ok payments
  | (id, fromAccountID, toAccountID, amount) :: rows' =>
      match scan_err φ with
      | Some (j, msg) =>
          if decide (i = j) then Err (ErrDriver msg)
          else ListPayments_loop φ (S i) rows'
                 (payments ++ [mkPayment id fromAccountID toAccountID amount])
      | None =>
          ListPayments_loop φ (S i) rows'
            (payments ++ [mkPayment id fromAccountID toAccountID amount])
      end
  end.

Definition ListPayments (φ : Faults) : M (list Payment) :=
  do rows <- db_Query_payments φ;
  lift (ListPayments_loop φ 0 rows []).

(** The body of [SendPayment] between [Begin] and the deferred
    [Rollback].  [fromAccount] and [toAccount] are pointers into
    [accountsByID] under two different keys, so they are two different
    objects and the two assignments to [Balance] do not interfere. *)
Definition SendPayment_tx (φ : Faults) (fromAccountID toAccountID : string)
  (amount : Decimal) : M unit :=
  do rows <- tx_Query φ fromAccountID toAccountID;
  do accounts <- lift (getAccounts φ rows);
  let accountsByID : gmap string Account :=
    foldl (λ m account, <[ID account := account]> m) ∅ accounts in
  match accountsByID !! fromAccountID, accountsByID !! toAccountID with
  | Some fromAccount, Some toAccount =>
      if negb (Currency fromAccount =? Currency toAccount)%string
      then fail ErrCurrencyMismatch
      else
        let fromAccount :=
          mkAccount (ID fromAccount) (Sub (Balance fromAccount) amount)
            (Currency fromAccount) in
        let toAccount :=
          mkAccount (ID toAccount) (Add (Balance toAccount) amount)
            (Currency toAccount) in
        if IsNegative (Balance fromAccount)
        then fail ErrInsufficientBalance
        else
          do_ tx_Exec_update (exec_from_err φ) (Balance fromAccount) (ID fromAccount);
          do_ tx_Exec_update (exec_to_err φ) (Balance toAccount) (ID toAccount);
          do_ tx_Exec_insert (exec_insert_err φ) (ID fromAccount) (ID toAccount) amount;
          do_ tx_Commit φ;
          ret ()
  | _, _ => fail ErrAccountNotFound
  end.

Definition SendPayment (φ : Faults) (fromAccountID toAccountID : string)
  (amount : Decimal) : M unit :=
  if (fromAccountID =? "")%string || (toAccountID =? "")%string
  then fail ErrAccountNotSpecified
  else if (fromAccountID =? toAccountID)%string
  then fail ErrSameAccount
  else if negb (IsPositive amount)
  then fail ErrInvalidAmount
  else
    do_ db_Begin φ;
    defer tx_Rollback (SendPayment_tx φ fromAccountID toAccountID amount).

(** One service call on a database at rest: the error returned ([None]
    for [nil]), the database afterwards, and the calls made. *)
Definition err_of {A} (r : result A) : option error :=
  match r with Ok _ => None | Err e => Some e end.

Definition send (φ : Faults) (from to : string) (amount : Decimal) (d : DB)
  : option error * DB * list event :=
  let '(r, w) := SendPayment φ from to amount (mkWorld d None []) in
  (err_of r, db w, trace w).

(** The database of [init-db.sh]: three accounts, no payment. *)
Definition init_db : DB :=
  mkDB [ mkAccount "bob123" (mkDecimal 1000 (-1)) "USD";
         mkAccount "alice456" (mkDecimal 1 (-2)) "USD";
         mkAccount "eve789" (mkDecimal 5000 0) "RUB" ]
       [] 0.

(** A service call with its arguments and the faults it meets; a run
    of calls one after the other.  The databases between two calls are
    what any other caller can observe. *)
Record Call := mkCall {
  call_faults : Faults;
  call_from : string;
  call_to : string;
  call_amount : Decimal }.

Definition step (d : DB) (c : Call) : DB :=
  (send (call_faults c) (call_from c) (call_to c) (call_amount c) d).1.2.

Definition run (d : DB) (cs : list Call) : DB := foldl step d cs.

(** The account with a given identifier, if the table has one. *)
Definition lookup_account (id : string) (t : list Account) : option Account :=
  head (filter (λ a, ID a = id) t).

Definition nonneg (d : DB) : Prop :=
  Forall (λ a, IsNegative (Balance a) = false) (accounts d).

(** Every payment record names two accounts. *)
Definition payments_wf (d : DB) : Prop :=
  Forall (λ p, FromAccountID p ≠ "" ∧ ToAccountID p ≠ "") (payments d).

(** The records sit in the table in the order they were committed
    in, with growing identifiers, none beyond the sequence. *)
Definition before (p q : Payment) : Prop := (PaymentID p < PaymentID q)%Z.

Definition payments_ordered (d : DB) : Prop :=
  StronglySorted before (payments d) ∧
  Forall (λ p, (PaymentID p ≤ payments_id_seq d)%Z) (payments d).

(** The transaction opens and the reads of the call meet no fault. *)
Definition reads_ok (φ : Faults) : Prop :=
  begin_err φ = None ∧ query_err φ = None ∧
  next_stop φ = None ∧ scan_err φ = None.

(** ** [endpoints.go] *)

Record paymentItem := mkPaymentItem {
  item_Account : string;
  item_Amount : Decimal;
  item_FromAccount : string;
  item_ToAccount : string;
  item_Direction : string }.

Record listPaymentsResponse := mkListPaymentsResponse {
  resp_Payments : list paymentItem;
  resp_Err : option error }.

Definition outgoing_item (payment : Payment) : paymentItem :=
  {| item_Account := FromAccountID payment;
     item_Amount := Amount payment;
     item_FromAccount := "";
     item_ToAccount := ToAccountID payment;
     item_Direction := "outgoing" |}.

Definition incoming_item (payment : Payment) : paymentItem :=
  {| item_Account := ToAccountID payment;
     item_Amount := Amount payment;
     item_FromAccount := FromAccountID payment;
     item_ToAccount := "";
     item_Direction := "incoming" |}.

(** The endpoint made by [makeListPaymentsEndpoint]: on an error of
    [ListPayments] the slice is [nil], the loop does nothing, and the
    error travels in the response. *)
Definition payment_items (payments : list Payment) : list paymentItem :=
  foldl (λ items payment,
           (items ++ [outgoing_item payment]) ++ [incoming_item payment])
        [] payments.

Definition listPaymentsEndpoint (φ : Faults) (w : World)
  : listPaymentsResponse * World :=
  let '(r, w') := ListPayments φ w in
  let payments := match r with Ok ps => ps | Err _ => [] end in
  let items := payment_items payments in
  (mkListPaymentsResponse items (err_of r), w').

Definition list_payments (φ : Faults) (d : DB) : listPaymentsResponse :=
  (listPaymentsEndpoint φ (mkWorld d None [])).1.

(** JSON as [encoding/json] writes it for the response types: an
    object is the list of its members in field order, and a string
    field tagged [omitempty] is left out when it is empty.  A decimal
    is written by its own marshaller, kept abstract. *)
Inductive json :=
| JString (s : string)
| JDecimal (d : Decimal).

Definition object : Type := list (string * json).

Definition omitempty (key : string) (s : string) : object :=
  if (s =? "")%string then [] else [(key, JString s)].

Definition paymentItem_json (it : paymentItem) : object :=
  [("account", JString (item_Account it));
   ("amount", JDecimal (item_Amount it))]
  ++ omitempty "from_account" (item_FromAccount it)
  ++ omitempty "to_account" (item_ToAccount it)
  ++ [("direction", JString (item_Direction it))].

Definition has_member (key : string) (o : object) : bool :=
  existsb (λ kv, (kv.1 =? key)%string) o.

(** ** The HTTP transport *)

Definition StatusBadRequest : Z := 400.
Definition StatusForbidden : Z := 403.
Definition StatusNotFound : Z := 404.
Definition StatusInternalServerError : Z := 500.

Definition codeFrom (err : option error) : Z :=
  match err with
  | Some ErrCurrencyMismatch | Some ErrInsufficientBalance
  | Some ErrInvalidAmount | Some ErrSameAccount => StatusForbidden
  | Some ErrAccountNotFound => StatusNotFound
  | Some ErrMalformedJSON | Some ErrAccountNotSpecified => StatusBadRequest
  | _ => StatusInternalServerError
  end.

Record response := mkResponse {
  status : Z;
  body : object }.

Inductive outcome (A : Type) :=
| Returns (a : A)
| Panics (msg : string).
Arguments Returns {A} a.
Arguments Panics {A} msg.

(** The table of sections 6 and 7 of the specification, in its words:
    the status and the text sent for each kind of error. *)
Definition spec_error_table (e : error) : Z * string :=
  match e with
  | ErrMalformedJSON => (400, "unable to parse request")
  | ErrAccountNotSpecified => (400, "two accounts must be specified")
  | ErrSameAccount => (403, "cannot send a payment to the same account")
  | ErrInvalidAmount => (403, "invalid amount")
  | ErrCurrencyMismatch => (403, "accounts have different currencies")
  | ErrInsufficientBalance => (403, "insufficient balance")
  | ErrAccountNotFound => (404, "account(s) not found")
  | ErrDriver _ => (500, "internal server error")
  end%Z.

Definition encodeError (err : option error) : outcome response :=
  match err with
  | None => Panics "encodeError with nil error"
  | Some e =>
      let code := codeFrom err in
      let msg := Error e in
      let msg := if (code =? StatusInternalServerError)%Z
                 then "internal server error" else msg in
      Returns (mkResponse code [("error", JString msg)])
  end.

(** ** The rest of the service: [ListAccounts], the interface, logging *)

(** [pool.Query(ctx, "SELECT id, balance, currency FROM accounts
    ORDER BY id")] *)
Definition db_Query_accounts (φ : Faults) : M (list account_row) :=
  do_ driver_call (query_err φ);
  λ w, (Ok (delivered φ
              (row_of_account <$> merge_sort by_id (accounts (db w)))), w).

Definition ListAccounts (φ : Faults) : M (list Account) :=
  do rows <- db_Query_accounts φ;
  lift (getAccounts φ rows).

(** The interface [Service], over whatever state an implementation
    works on. *)
Record Service (S : Type) := mkService {
  svc_ListAccounts : S → result (list Account) * S;
  svc_ListPayments : S → result (list Payment) * S;
  svc_SendPayment : string → string → Decimal → S → result unit * S }.
Arguments mkService {S} _ _ _.
Arguments svc_ListAccounts {S} _ _.
Arguments svc_ListPayments {S} _ _.
Arguments svc_SendPayment {S} _ _ _ _ _.

(** [NewWalletService(db)]: the implementation on Postgres; [φ] tells
    which calls on the pool go wrong. *)
Definition NewWalletService (φ : Faults) : Service World :=
  mkService (ListAccounts φ) (ListPayments φ) (SendPayment φ).

(** What [logger.Log] is given: keys and values.  The time stamp and
    the caller that [main] adds to every line are left out. *)
Inductive logvalue :=
| LogString (s : string)
| LogDecimal (d : Decimal)
| LogError (err : option error).

Definition logline : Type := list (string * logvalue).

Definition logger_Log (keyvals : logline) (out : list logline) : list logline :=
  out ++ [keyvals].

(** [LoggingMiddleware(logger)(next)]: each method calls [next] and,
    in a deferred function, logs the method, its arguments and the
    error it is about to return. *)
Definition LoggingMiddleware {S} (next : Service S) : Service (S * list logline) :=
  mkService
    (λ '(s, out),
       let '(r, s') := svc_ListAccounts next s in
       (r, (s', logger_Log [("method", LogString "ListAccounts");
                            ("err", LogError (err_of r))] out)))
    (λ '(s, out),
       let '(r, s') := svc_ListPayments next s in
       (r, (s', logger_Log [("method", LogString "ListPayments");
                            ("err", LogError (err_of r))] out)))
    (λ fromAccountID toAccountID amount '(s, out),
       let '(r, s') := svc_SendPayment next fromAccountID toAccountID amount s in
       (r, (s', logger_Log [("method", LogString "SendPayment");
                            ("fromAccountID", LogString fromAccountID);
                            ("toAccountID", LogString toAccountID);
                            ("amount", LogDecimal amount);
                            ("err", LogError (err_of r))] out))).

(** ** The rest of [endpoints.go] *)

Record listAccountsResponse := mkListAccountsResponse {
  resp_Accounts : list Account;
  resp_AccountsErr : option error }.

Record sendPaymentRequest := mkSendPaymentRequest {
  req_FromAccountID : string;
  req_ToAccountID : string;
  req_Amount : Decimal }.

Record sendPaymentResponse := mkSendPaymentResponse {
  resp_Status : string;
  resp_SendErr : option error }.

Definition makeListAccountsEndpoint {S} (svc : Service S) (s : S)
  : listAccountsResponse * S :=
  let '(r, s') := svc_ListAccounts svc s in
  (mkListAccountsResponse (match r with Ok l => l | Err _ => [] end) (err_of r),
   s').

Definition makeListPaymentsEndpoint {S} (svc : Service S) (s : S)
  : listPaymentsResponse * S :=
  let '(r, s') := svc_ListPayments svc s in
  let payments := match r with Ok ps => ps | Err _ => [] end in
  (mkListPaymentsResponse (payment_items payments) (err_of r), s').

Definition makeSendPaymentEndpoint {S} (svc : Service S)
  (req : sendPaymentRequest) (s : S) : sendPaymentResponse * S :=
  let '(r, s') :=
    svc_SendPayment svc (req_FromAccountID req) (req_ToAccountID req)
      (req_Amount req) s in
  let err := err_of r in
  let status := match err with
                | None => "Payment successfully sent"
                | Some _ => "Payment failed"
                end in
  (mkSendPaymentResponse status err, s').

(** ** The rest of the transport *)

(** A response of any of the three endpoints; each has the method
    [error()]. *)
Inductive any_response :=
| ListAccountsResponse (r : listAccountsResponse)
| ListPaymentsResponse (r : listPaymentsResponse)
| SendPaymentResponse (r : sendPaymentResponse).

Definition errorer (r : any_response) : option error :=
  match r with
  | ListAccountsResponse r => resp_AccountsErr r
  | ListPaymentsResponse r => resp_Err r
  | SendPaymentResponse r => resp_SendErr r
  end.

(** A JSON document one level deeper than [object]: a member is a
    scalar or an array of objects. *)
Inductive jvalue :=
| JScalar (j : json)
| JObjects (l : list object).

Definition document : Type := list (string * jvalue).

Definition Account_json (a : Account) : object :=
  [("id", JString (ID a));
   ("balance", JDecimal (Balance a));
   ("currency", JString (Currency a))].

(** The response as [json.Encode] writes it when its [Err] is [nil]
    (the member [err] is tagged [omitempty]). *)
Definition response_json (r : any_response) : document :=
  match r with
  | ListAccountsResponse r =>
      [("accounts", JObjects (Account_json <$> resp_Accounts r))]
  | ListPaymentsResponse r =>
      [("payments", JObjects (paymentItem_json <$> resp_Payments r))]
  | SendPaymentResponse r =>
      [("status", JScalar (JString (resp_Status r)))]
  end.

Definition StatusOK : Z := 200.

(** What ends up in the [http.ResponseWriter]: the content type when
    the code sets one, the status, the body. *)
Record http_response := mkHttp {
  http_content_type : option string;
  http_status : Z;
  http_body : document }.

Definition written (content_type : option string) (o : outcome response)
  : outcome http_response :=
  match o with
  | Returns r =>
      Returns (mkHttp content_type (status r)
                 (prod_map id JScalar <$> body r))
  | Panics msg => Panics msg
  end.

Definition encodeResponse (r : any_response) : outcome http_response :=
  let content_type := Some "application/json; charset=utf-8" in
  match errorer r with
  | Some _ => written content_type (encodeError (errorer r))
  | None => Returns (mkHttp content_type StatusOK (response_json r))
  end.

(** [decodeSendPaymentRequest]: whatever the JSON decoder objects to,
    the error returned is [ErrMalformedJSON].  [decoded] is what
    [dec.Decode(&req)] made of the body, [None] when it failed. *)
Definition decodeSendPaymentRequest (decoded : option sendPaymentRequest)
  : result sendPaymentRequest :=
  match decoded with
  | Some req => Ok req
  | None => Err ErrMalformedJSON
  end.

(** The three routes of [MakeHTTPHandler] with what the request
    carries. *)
Inductive request :=
| GET_accounts
| GET_payments
| POST_payments (decoded : option sendPaymentRequest).

(** The server go-kit builds from a decoder, an endpoint and an
    encoder, with the options of [MakeHTTPHandler]: an error of the
    decoder goes to the error handler, which logs it, and to
    [encodeError]; otherwise the endpoint runs and [encodeResponse]
    writes its response. *)
Definition NewServer {S Req} (e : Req → S * list logline → any_response * (S * list logline))
  (dec : result Req) (s : S * list logline)
  : outcome http_response * (S * list logline) :=
  match dec with
  | Err err =>
      (written None (encodeError (Some err)),
       (s.1, logger_Log [("component", LogString "HTTP");
                         ("err", LogError (Some err))] s.2))
  | Ok req =>
      let '(resp, s') := e req s in (encodeResponse resp, s')
  end.

Definition MakeHTTPHandler {S} (svc : Service (S * list logline)) (r : request)
  : S * list logline → outcome http_response * (S * list logline) :=
  match r with
  | GET_accounts =>
      NewServer (λ _ : unit, λ s,
                   let '(resp, s') := makeListAccountsEndpoint svc s in
                   (ListAccountsResponse resp, s'))
        (Ok ())
  | GET_payments =>
      NewServer (λ _ : unit, λ s,
                   let '(resp, s') := makeListPaymentsEndpoint svc s in
                   (ListPaymentsResponse resp, s'))
        (Ok ())
  | POST_payments decoded =>
      NewServer (λ req s,
                   let '(resp, s') := makeSendPaymentEndpoint svc req s in
                   (SendPaymentResponse resp, s'))
        (decodeSendPaymentRequest decoded)
  end.

(** The handler [main] serves: the Postgres service behind the logging
    middleware behind the HTTP transport. *)
Definition wallet_handler (φ : Faults) (r : request) (d : DB) (out : list logline)
  : outcome http_response * DB * list logline :=
  let '(o, (w, out')) :=
    MakeHTTPHandler (LoggingMiddleware (NewWalletService φ)) r
      (mkWorld d None [], out) in
  (o, db w, out').

(** ** Observations on the ledger *)

(** The number a decimal stands for, as a rational. *)
Definition number (d : Decimal) : Q :=
  (inject_Z (value d) * inject_Z 10 ^ exp d)%Q.

(** The driver calls that write, and the commit, meet no fault. *)
Definition writes_ok (φ : Faults) : Prop :=
  exec_from_err φ = None ∧ exec_to_err φ = None ∧
  exec_insert_err φ = None ∧ commit_err φ = None.

(** The balance an account has after the payments of a list, taken in
    order: each payment it sends is subtracted, each payment it
    receives is added. *)
Definition apply_payment (id : string) (b : Decimal) (p : Payment) : Decimal :=
  let b := if decide (FromAccountID p = id) then Sub b (Amount p) else b in
  if decide (ToAccountID p = id) then Add b (Amount p) else b.

Definition apply_payments (id : string) (b : Decimal) (ps : list Payment)
  : Decimal :=
  foldl (apply_payment id) b ps.

(** All the money held in one currency. *)
Definition total_balance (currency : string) (t : list Account) : Decimal :=
  foldl (λ s a, Add s (Balance a)) (NewFromInt 0)
    (filter (λ a, Currency a = currency) t).

(** The sum of the coefficients of the balances written with exponent
    [e], and an exponent no balance of the list goes below. *)
Definition coeff_sum (e : Z) (t : list Account) : Z :=
  foldr (λ a s, (coeff_at e (Balance a) + s)%Z) 0%Z t.

Definition floor_exp (e0 : Z) (t : list Account) : Z :=
  foldr (λ a m, Z.min (exp (Balance a)) m) e0 t.

(** The row locks a trace shows, in order. *)
Definition locks_of (tr : list event) : list string :=
  omap (λ ev, match ev with EvLock id => Some id | _ => None end) tr.

Definition is_write (ev : event) : bool :=
  match ev with
  | EvUpdate _ _ | EvInsert _ _ _ | EvCommit => true
  | _ => false
  end.

(** * Properties *)

(** ** Decimal arithmetic is exact *)

Section decimal_facts.

Local Open Scope Z_scope.

Lemma rescale_down d e :
  e <= exp d -> rescale d e = {| value := coeff_at e d; exp := e |}.
Proof.
  intros Hle. unfold rescale, coeff_at.
  destruct (Z.eqb_spec (exp d) e) as [<-|Hne].
  - destruct d as [v x]; simpl. rewrite Z.sub_diag, Z.mul_1_r. reflexivity.
  - destruct (Z.ltb_spec (exp d) e); [lia|].
    rewrite Z.abs_neq by lia. do 2 f_equal. f_equal. lia.
Qed.

Lemma RescalePair_min d1 d2 :
  let m := Z.min (exp d1) (exp d2) in
  RescalePair d1 d2 =
    ({| value := coeff_at m d1; exp := m |},
     {| value := coeff_at m d2; exp := m |}).
Proof.
  intros m. unfold RescalePair. subst m.
  destruct (Z.eqb_spec (exp d1) (exp d2)) as [He|Hne].
  - rewrite <- He, Z.min_id. unfold coeff_at.
    rewrite <- He, Z.sub_diag, !Z.mul_1_r.
    destruct d1, d2; simpl in *; subst; reflexivity.
  - destruct (Z.eqb_spec (Z.min (exp d1) (exp d2)) (exp d1)) as [Hm|Hm]; simpl.
    + rewrite rescale_down by lia. rewrite Hm. f_equal.
      unfold coeff_at. rewrite Z.sub_diag, Z.mul_1_r. destruct d1; reflexivity.
    + rewrite rescale_down by lia.
      assert (Z.min (exp d1) (exp d2) = exp d2) as -> by lia. f_equal.
      unfold coeff_at. rewrite Z.sub_diag, Z.mul_1_r. destruct d2; reflexivity.
Qed.

Lemma coeff_at_shift e e' d :
  e <= e' -> e' <= exp d ->
  coeff_at e d = coeff_at e' d * 10 ^ (e' - e).
Proof.
  intros H1 H2. unfold coeff_at.
  rewrite <- Z.mul_assoc, <- Z.pow_add_r by lia. do 2 f_equal. lia.
Qed.

Lemma pow10_pos n : 0 <= n -> 0 < 10 ^ n.
Proof. intros. apply Z.pow_pos_nonneg; lia. Qed.

Lemma exp_Add d d2 : exp (Add d d2) = Z.min (exp d) (exp d2).
Proof. unfold Add. rewrite RescalePair_min. reflexivity. Qed.

Lemma exp_Sub d d2 : exp (Sub d d2) = Z.min (exp d) (exp d2).
Proof. unfold Sub. rewrite RescalePair_min. reflexivity. Qed.

Lemma coeff_at_Add e d d2 :
  e <= exp d -> e <= exp d2 ->
  coeff_at e (Add d d2) = coeff_at e d + coeff_at e d2.
Proof.
  intros H1 H2. unfold Add. rewrite RescalePair_min. cbn zeta.
  set (m := Z.min (exp d) (exp d2)).
  unfold coeff_at at 1; simpl.
  rewrite (coeff_at_shift e m d), (coeff_at_shift e m d2) by lia. ring.
Qed.

Lemma coeff_at_Sub e d d2 :
  e <= exp d -> e <= exp d2 ->
  coeff_at e (Sub d d2) = coeff_at e d - coeff_at e d2.
Proof.
  intros H1 H2. unfold Sub. rewrite RescalePair_min. cbn zeta.
  set (m := Z.min (exp d) (exp d2)).
  unfold coeff_at at 1; simpl.
  rewrite (coeff_at_shift e m d), (coeff_at_shift e m d2) by lia. ring.
Qed.

Lemma Cmp_coeff e d d2 :
  e <= exp d -> e <= exp d2 ->
  Cmp d d2 = Z.sgn (coeff_at e d - coeff_at e d2).
Proof.
  intros H1 H2.
  assert (Hm : Cmp d d2 =
    Z.sgn (coeff_at (Z.min (exp d) (exp d2)) d
           - coeff_at (Z.min (exp d) (exp d2)) d2)).
  { unfold Cmp. destruct (Z.eqb_spec (exp d) (exp d2)) as [He|Hne].
    - rewrite <- He, Z.min_id. unfold coeff_at.
      rewrite <- He, Z.sub_diag, !Z.mul_1_r. reflexivity.
    - rewrite RescalePair_min. reflexivity. }
  rewrite Hm. set (m := Z.min (exp d) (exp d2)).
  rewrite (coeff_at_shift e m d), (coeff_at_shift e m d2) by lia.
  rewrite <- Z.mul_sub_distr_r, Z.sgn_mul.
  rewrite (Z.sgn_pos (10 ^ (m - e))) by (apply pow10_pos; lia). lia.
Qed.

Lemma Equal_coeff e d d2 :
  e <= exp d -> e <= exp d2 ->
  Equal d d2 = true <-> coeff_at e d = coeff_at e d2.
Proof.
  intros H1 H2. unfold Equal. rewrite (Cmp_coeff e) by assumption.
  rewrite Z.eqb_eq, Z.sgn_null_iff. lia.
Qed.

Lemma Sign_coeff e d : e <= exp d -> Sign d = Z.sgn (coeff_at e d).
Proof.
  intros H. unfold Sign, coeff_at. rewrite Z.sgn_mul.
  rewrite (Z.sgn_pos (10 ^ _)) by (apply pow10_pos; lia). lia.
Qed.

Lemma IsNegative_coeff e d :
  e <= exp d -> IsNegative d = true <-> coeff_at e d < 0.
Proof.
  intros H. unfold IsNegative. rewrite (Sign_coeff e) by assumption.
  rewrite Z.eqb_eq. split; [intros Hs; apply Z.sgn_neg_iff; exact Hs|].
  intros Hs. apply Z.sgn_neg. exact Hs.
Qed.

Lemma IsPositive_coeff e d :
  e <= exp d -> IsPositive d = true <-> 0 < coeff_at e d.
Proof.
  intros H. unfold IsPositive. rewrite (Sign_coeff e) by assumption.
  rewrite Z.eqb_eq. split; [intros Hs; apply Z.sgn_pos_iff; exact Hs|].
  intros Hs. apply Z.sgn_pos. exact Hs.
Qed.

Lemma Equal_Add_Sub b a : Equal (Add (Sub b a) a) b = true.
Proof.
  apply (Equal_coeff (Z.min (exp b) (exp a)));
    [rewrite exp_Add, exp_Sub; lia | lia |].
  rewrite coeff_at_Add, coeff_at_Sub by (rewrite ?exp_Sub; lia). lia.
Qed.

Lemma Equal_Sub_Add b a : Equal (Sub (Add b a) a) b = true.
Proof.
  apply (Equal_coeff (Z.min (exp b) (exp a)));
    [rewrite exp_Sub, exp_Add; lia | lia |].
  rewrite coeff_at_Sub, coeff_at_Add by (rewrite ?exp_Add; lia). lia.
Qed.

Lemma Equal_Add_Sub_Add s t a :
  Equal (Add (Sub s a) (Add t a)) (Add s t) = true.
Proof.
  apply (Equal_coeff (Z.min (Z.min (exp s) (exp t)) (exp a)));
    [rewrite exp_Add, exp_Sub, exp_Add; lia | rewrite exp_Add; lia |].
  rewrite !coeff_at_Add, coeff_at_Sub by (rewrite ?exp_Add, ?exp_Sub; lia).
  lia.
Qed.

Lemma Equal_Sub_positive b a :
  IsPositive a = true -> Equal (Sub b a) b = false.
Proof.
  intros Ha. apply not_true_is_false. intros HE.
  apply (IsPositive_coeff (Z.min (exp b) (exp a))) in Ha; [|lia].
  apply (Equal_coeff (Z.min (exp b) (exp a))) in HE;
    [|rewrite exp_Sub; lia|lia].
  rewrite coeff_at_Sub in HE by lia. lia.
Qed.

Lemma Equal_Add_positive b a :
  IsPositive a = true -> Equal (Add b a) b = false.
Proof.
  intros Ha. apply not_true_is_false. intros HE.
  apply (IsPositive_coeff (Z.min (exp b) (exp a))) in Ha; [|lia].
  apply (Equal_coeff (Z.min (exp b) (exp a))) in HE;
    [|rewrite exp_Add; lia|lia].
  rewrite coeff_at_Add in HE by lia. lia.
Qed.

Lemma IsNegative_Add_positive b a :
  IsNegative b = false -> IsPositive a = true -> IsNegative (Add b a) = false.
Proof.
  intros Hb Ha. apply not_true_is_false. intros HN.
  apply (IsPositive_coeff (Z.min (exp b) (exp a))) in Ha; [|lia].
  apply (IsNegative_coeff (Z.min (exp b) (exp a))) in HN;
    [|rewrite exp_Add; lia].
  rewrite coeff_at_Add in HN by lia.
  assert (Hb' : ~ coeff_at (Z.min (exp b) (exp a)) b < 0).
  { intros H. apply (IsNegative_coeff (Z.min (exp b) (exp a))) in H; [|lia].
    congruence. }
  lia.
Qed.

Lemma IsPositive_false a : IsPositive a = false <-> value a <= 0.
Proof.
  unfold IsPositive, Sign. rewrite Z.eqb_neq.
  destruct (value a); simpl; lia.
Qed.

End decimal_facts.

(** ** Rows, tables and the map of accounts *)

Section tables.

Implicit Types (t l : list Account) (a : Account) (id : string).

Lemma delivered_accounts φ l :
  delivered φ (row_of_account <$> l) = row_of_account <$> delivered φ l.
Proof. unfold delivered. destruct (next_stop φ); [|done]. by rewrite fmap_take. Qed.

Lemma delivered_subseteq {A} φ (l : list A) : delivered φ l ⊆ l.
Proof. unfold delivered. destruct (next_stop φ); [apply subseteq_take|done]. Qed.

Lemma delivered_sublist {A} φ (l : list A) : delivered φ l `sublist_of` l.
Proof. unfold delivered. destruct (next_stop φ); [apply sublist_take|done]. Qed.

Lemma getAccounts_loop_Ok φ i l acc r :
  getAccounts_loop φ i (row_of_account <$> l) acc = Ok r → r = acc ++ l.
Proof.
  revert i acc. induction l as [|[id b c] l IH]; intros i acc; simpl.
  - intros [= <-]. by rewrite app_nil_r.
  - destruct (scan_err φ) as [[j msg]|]; [case_decide; [done|]|];
      intros ->%IH; by rewrite <- app_assoc.
Qed.

Lemma getAccounts_loop_no_fault φ i l acc :
  scan_err φ = None →
  getAccounts_loop φ i (row_of_account <$> l) acc = Ok (acc ++ l).
Proof.
  intros Hs. revert i acc. induction l as [|[id b c] l IH]; intros i acc; simpl.
  - by rewrite app_nil_r.
  - rewrite Hs, IH. by rewrite <- app_assoc.
Qed.

Lemma getAccounts_Ok φ l r :
  getAccounts φ (row_of_account <$> l) = Ok r → r = l.
Proof. apply getAccounts_loop_Ok. Qed.

(** [accountsByID]: the last account of the slice under each key. *)
Lemma accountsByID_lookup l (m0 : gmap string Account) id a :
  foldl (λ m account, <[ID account := account]> m) m0 l !! id = Some a →
  (a ∈ l ∧ ID a = id) ∨ m0 !! id = Some a.
Proof.
  revert m0. induction l as [|b l IH]; intros m0; simpl; [by right|].
  intros [[Hin Hid]|Hm]%IH.
  - left. split; [by right|done].
  - destruct (decide (ID b = id)) as [Heq|Hne].
    + rewrite <- Heq, lookup_insert_eq in Hm. injection Hm as <-.
      left. split; [by left|done].
    + rewrite lookup_insert_ne in Hm by done. by right.
Qed.

Lemma accountsByID_lookup_None l (m0 : gmap string Account) id :
  (∀ a, a ∈ l → ID a ≠ id) →
  foldl (λ m account, <[ID account := account]> m) m0 l !! id = m0 !! id.
Proof.
  revert m0. induction l as [|b l IH]; intros m0 Hl; simpl; [done|].
  rewrite IH by (intros a Ha; apply Hl; by right).
  apply lookup_insert_ne, Hl. by left.
Qed.

Lemma accountsByID_lookup_elem l (m0 : gmap string Account) a :
  NoDup (ID <$> l) → a ∈ l →
  foldl (λ m account, <[ID account := account]> m) m0 l !! ID a = Some a.
Proof.
  revert m0. induction l as [|b l IH]; intros m0 Hnd Ha; simpl.
  - by apply elem_of_nil in Ha.
  - rewrite fmap_cons in Hnd. apply NoDup_cons in Hnd as [Hb Hnd].
    apply elem_of_cons in Ha as [->|Ha]; [|by apply IH].
    rewrite accountsByID_lookup_None; [apply lookup_insert_eq|].
    intros a Ha Heq. apply Hb. rewrite <- Heq. by apply list_elem_of_fmap_2.
Qed.

Lemma lookup_account_Some id t a :
  lookup_account id t = Some a → a ∈ t ∧ ID a = id.
Proof.
  unfold lookup_account. intros Hh%head_Some_elem_of.
  apply list_elem_of_filter in Hh as [? ?]. done.
Qed.

Lemma lookup_account_None id t :
  lookup_account id t = None ↔ ∀ a, a ∈ t → ID a ≠ id.
Proof.
  unfold lookup_account. rewrite head_None. split.
  - intros Hnil a Ha Hid.
    eapply (filter_nil_not_elem_of (λ a, ID a = id)); eauto.
  - intros Hall. induction t as [|b t IH]; [done|].
    rewrite filter_cons_False by (apply Hall; by left).
    apply IH. intros a Ha. apply Hall. by right.
Qed.

Lemma lookup_account_elem t a :
  NoDup (ID <$> t) → a ∈ t → lookup_account (ID a) t = Some a.
Proof.
  unfold lookup_account. induction t as [|b t IH]; intros Hnd Ha.
  - by apply elem_of_nil in Ha.
  - rewrite fmap_cons in Hnd. apply NoDup_cons in Hnd as [Hb Hnd].
    apply elem_of_cons in Ha as [->|Ha].
    + by rewrite filter_cons_True.
    + rewrite filter_cons_False; [by apply IH|].
      intros Heq. apply Hb. rewrite Heq. by apply list_elem_of_fmap_2.
Qed.

Lemma elem_of_select_accounts id1 id2 t a :
  a ∈ select_accounts id1 id2 t ↔ a ∈ t ∧ (ID a = id1 ∨ ID a = id2).
Proof.
  unfold select_accounts. rewrite merge_sort_Permutation, list_elem_of_filter.
  tauto.
Qed.

Lemma NoDup_select_accounts id1 id2 t :
  NoDup (ID <$> t) → NoDup (ID <$> select_accounts id1 id2 t).
Proof.
  intros Hnd. unfold select_accounts. rewrite merge_sort_Permutation.
  eapply sublist_NoDup; [done|]. apply fmap_sublist, sublist_filter.
Qed.

Lemma update_balance_ids b id t : ID <$> update_balance b id t = ID <$> t.
Proof.
  unfold update_balance. rewrite <- list_fmap_compose.
  apply list_fmap_ext. intros i a _. simpl. by case_decide.
Qed.

Lemma update_balance_currencies b id t :
  Currency <$> update_balance b id t = Currency <$> t.
Proof.
  unfold update_balance. rewrite <- list_fmap_compose.
  apply list_fmap_ext. intros i a _. simpl. by case_decide.
Qed.

Lemma update_balance_lookup b id t (i : nat) a :
  t !! i = Some a →
  update_balance b id t !! i =
    Some (if decide (ID a = id) then mkAccount (ID a) b (Currency a) else a).
Proof. intros Hi. unfold update_balance. by rewrite list_lookup_fmap, Hi. Qed.

Lemma lookup_account_update_eq b id t a :
  lookup_account id t = Some a →
  lookup_account id (update_balance b id t) = Some (mkAccount id b (Currency a)).
Proof.
  unfold lookup_account, update_balance.
  induction t as [|c t IH]; [done|]. rewrite fmap_cons.
  destruct (decide (ID c = id)) as [Heq|Hne].
  - rewrite !filter_cons_True by (simpl; done). simpl.
    intros [= ->]. by rewrite Heq.
  - rewrite !filter_cons_False by done. apply IH.
Qed.

Lemma lookup_account_update_ne b id id' t :
  id ≠ id' →
  lookup_account id' (update_balance b id t) = lookup_account id' t.
Proof.
  intros Hne. unfold lookup_account, update_balance.
  induction t as [|c t IH]; [done|]. rewrite fmap_cons.
  destruct (decide (ID c = id)) as [Heq|Hne'].
  - rewrite !filter_cons_False by (simpl; congruence). apply IH.
  - destruct (decide (ID c = id')).
    + by rewrite !filter_cons_True.
    + by rewrite !filter_cons_False.
Qed.

End tables.

(** ** One call of [SendPayment] *)

Ltac unfold_M :=
  unfold SendPayment_tx, db_Begin, tx_Query, tx_Exec_update, tx_Exec_insert,
    tx_Commit, tx_Rollback, driver_call, log, lift, defer, fail, ret, bind in *.

Ltac run_SendPayment :=
  unfold send, SendPayment; unfold_M;
  repeat (case_match; simplify_eq/=); intros; simplify_eq/=.

Section one_call.

Implicit Types (φ : Faults) (from to : string) (amount : Decimal) (d : DB).

Lemma validation_passed from to amount :
  (from =? "")%string || (to =? "")%string = false →
  (from =? to)%string = false →
  negb (IsPositive amount) = false →
  from ≠ "" ∧ to ≠ "" ∧ from ≠ to ∧ IsPositive amount = true.
Proof.
  intros [H1 H2]%orb_false_iff H3 H4%negb_false_iff.
  by rewrite String.eqb_neq in H1, H2, H3.
Qed.

Lemma validation_passes from to amount :
  from ≠ "" → to ≠ "" → from ≠ to → IsPositive amount = true →
  (from =? "")%string || (to =? "")%string = false ∧
  (from =? to)%string = false ∧
  negb (IsPositive amount) = false.
Proof.
  intros H1%String.eqb_neq H2%String.eqb_neq H3%String.eqb_neq ->.
  by rewrite H1, H2, H3.
Qed.

(** The accounts the loop of [SendPayment] finds are rows of the table. *)
Lemma fetched_account φ from to d fetched id a :
  getAccounts φ
    (delivered φ (row_of_account <$> select_accounts from to (accounts d)))
    = Ok fetched →
  foldl (λ (m : gmap string Account) account, <[ID account := account]> m)
    ∅ fetched !! id = Some a →
  a ∈ accounts d ∧ ID a = id.
Proof.
  rewrite delivered_accounts. intros ->%getAccounts_Ok.
  intros [[Hin Hid]|Hm]%accountsByID_lookup; [|by rewrite lookup_empty in Hm].
  split; [|done].
  apply delivered_subseteq, elem_of_select_accounts in Hin. tauto.
Qed.

(** A call that returns an error leaves both tables as they were. *)
Lemma send_Some φ from to amount d e d' tr :
  send φ from to amount d = (Some e, d', tr) →
  accounts d' = accounts d ∧ payments d' = payments d.
Proof. by run_SendPayment. Qed.

(** A call that returns [nil] went through every step. *)
Lemma send_None φ from to amount d d' tr :
  send φ from to amount d = (None, d', tr) →
  (from ≠ "" ∧ to ≠ "" ∧ from ≠ to ∧ IsPositive amount = true) ∧
  ∃ fromAccount toAccount,
    (fromAccount ∈ accounts d ∧ ID fromAccount = from) ∧
    (toAccount ∈ accounts d ∧ ID toAccount = to) ∧
    Currency fromAccount = Currency toAccount ∧
    IsNegative (Sub (Balance fromAccount) amount) = false ∧
    d' = mkDB
           (update_balance (Add (Balance toAccount) amount) to
              (update_balance (Sub (Balance fromAccount) amount) from
                 (accounts d)))
           (payments d ++ [mkPayment (payments_id_seq d + 1) from to amount])
           (payments_id_seq d + 1) ∧
    tr = [EvBegin; EvQuery from to]
         ++ (EvLock ∘ ID <$> delivered φ (select_accounts from to (accounts d)))
         ++ [EvUpdate (Sub (Balance fromAccount) amount) from;
             EvUpdate (Add (Balance toAccount) amount) to;
             EvInsert from to amount; EvCommit; EvRollback].
Proof.
  run_SendPayment.
  match goal with
  | Hg : getAccounts _ _ = Ok _,
    Hf : _ !! from = Some ?a, Ht : _ !! to = Some ?b |- _ =>
      pose proof (fetched_account _ _ _ _ _ _ _ Hg Hf) as [Hfin Hfid];
      pose proof (fetched_account _ _ _ _ _ _ _ Hg Ht) as [Htin Htid];
      split; [by apply validation_passed|];
      exists a, b
  end.
  rewrite Hfid, Htid.
  repeat split; try done.
  - match goal with
    | Hc : negb (_ =? _)%string = false |- _ =>
        apply negb_false_iff, String.eqb_eq in Hc; exact Hc
    end.
  - by rewrite <- !app_assoc.
Qed.

(** Under the primary key, and when the reads meet no fault, the map
    [accountsByID] answers as the table does. *)
Lemma accountsByID_select id1 id2 id (t : list Account) :
  NoDup (ID <$> t) → id = id1 ∨ id = id2 →
  foldl (λ (m : gmap string Account) account, <[ID account := account]> m)
    ∅ (select_accounts id1 id2 t) !! id = lookup_account id t.
Proof.
  intros Hnd Hid. destruct (lookup_account id t) as [a|] eqn:Hl.
  - apply lookup_account_Some in Hl as [Hin <-].
    apply accountsByID_lookup_elem; [by apply NoDup_select_accounts|].
    apply elem_of_select_accounts. split; [done|]. destruct Hid; auto.
  - rewrite accountsByID_lookup_None; [apply lookup_empty|].
    intros a [Ha _]%elem_of_select_accounts.
    by eapply lookup_account_None.
Qed.

Lemma fetched_all φ from to d :
  reads_ok φ →
  getAccounts φ
    (delivered φ (row_of_account <$> select_accounts from to (accounts d)))
  = Ok (select_accounts from to (accounts d)).
Proof.
  intros (_ & _ & Hn & Hs). unfold delivered, getAccounts. rewrite Hn.
  by apply getAccounts_loop_no_fault.
Qed.

(** What a call that passes validation and reads without fault
    returns before it writes anything. *)
Lemma send_checks φ from to amount d :
  reads_ok φ → pk_accounts d →
  from ≠ "" → to ≠ "" → from ≠ to → IsPositive amount = true →
  let tr := [EvBegin; EvQuery from to]
            ++ (EvLock ∘ ID <$> select_accounts from to (accounts d))
            ++ [EvRollback] in
  match lookup_account from (accounts d), lookup_account to (accounts d) with
  | Some fromAccount, Some toAccount =>
      if negb (Currency fromAccount =? Currency toAccount)%string
      then send φ from to amount d = (Some ErrCurrencyMismatch, d, tr)
      else if IsNegative (Sub (Balance fromAccount) amount)
      then send φ from to amount d = (Some ErrInsufficientBalance, d, tr)
      else True
  | _, _ => send φ from to amount d = (Some ErrAccountNotFound, d, tr)
  end.
Proof.
  intros Hr Hpk H1 H2 H3 H4.
  destruct (validation_passes _ _ _ H1 H2 H3 H4) as (V1 & V2 & V3).
  pose proof (fetched_all φ from to d Hr) as Hg.
  pose proof (accountsByID_select from to from _ Hpk (or_introl eq_refl)) as Hf.
  pose proof (accountsByID_select from to to _ Hpk (or_intror eq_refl)) as Ht.
  destruct Hr as (Hb & Hq & Hn & _).
  unfold send, SendPayment. rewrite V1, V2, V3. unfold_M.
  rewrite Hb, Hq. simpl. rewrite Hg, Hf, Ht.
  replace (delivered φ (select_accounts from to (accounts d)))
    with (select_accounts from to (accounts d))
    by (unfold delivered; by rewrite Hn).
  destruct d as [acc pay seq]; simpl.
  repeat case_match; simplify_eq/=; done.
Qed.

End one_call.

(** ** The scenarios of the test suite, run on the model *)

Section scenarios.

(** [bob123] = 100 and [alice456] = 0.01 become 90 and 10.01. *)
Example happy_path :
  (send no_faults "bob123" "alice456" (NewFromInt 10) init_db).1 =
    (None,
     mkDB [ mkAccount "bob123" (mkDecimal 900 (-1)) "USD";
            mkAccount "alice456" (mkDecimal 1001 (-2)) "USD";
            mkAccount "eve789" (mkDecimal 5000 0) "RUB" ]
          [ mkPayment 1 "bob123" "alice456" (NewFromInt 10) ] 1).
Proof. reflexivity. Qed.

(** The locks are taken on [alice456] first, then on [bob123]. *)
Example happy_path_trace :
  (send no_faults "bob123" "alice456" (NewFromInt 10) init_db).2 =
    [EvBegin; EvQuery "bob123" "alice456";
     EvLock "alice456"; EvLock "bob123";
     EvUpdate (mkDecimal 900 (-1)) "bob123";
     EvUpdate (mkDecimal 1001 (-2)) "alice456";
     EvInsert "bob123" "alice456" (NewFromInt 10);
     EvCommit; EvRollback].
Proof. reflexivity. Qed.

(** The calls of [TestSendPayment], each on the initial database. *)
Example TestSendPayment :
  (λ '(from, to, n), (send no_faults from to (NewFromInt n) init_db).1.1)
    <$> [("", "", 1%Z); ("testid", "", 1%Z); ("testid", "testid", 1%Z);
         ("testid1", "testid2", (-1)%Z); ("testid1", "testid2", 1%Z);
         ("alice456", "eve789", 1%Z); ("alice456", "bob123", 100%Z);
         ("bob123", "alice456", 10%Z)]
  = [Some ErrAccountNotSpecified; Some ErrAccountNotSpecified;
     Some ErrSameAccount; Some ErrInvalidAmount; Some ErrAccountNotFound;
     Some ErrCurrencyMismatch; Some ErrInsufficientBalance; None].
Proof. reflexivity. Qed.

(** A commit that fails: the error of the driver comes back, the
    tables are those of before, the sequence has moved on. *)
Example failed_commit :
  (send (mkFaults None None None None None None None (Some "conn closed"))
     "bob123" "alice456" (NewFromInt 10) init_db).1
  = (Some (ErrDriver "conn closed"),
     mkDB (accounts init_db) (payments init_db) 1).
Proof. reflexivity. Qed.

(** [TestListPayments]: two payments, of 10 and of 0.5. *)
Example TestListPayments :
  payments
    (run init_db
       [mkCall no_faults "bob123" "alice456" (NewFromInt 10);
        mkCall no_faults "bob123" "alice456" (mkDecimal 5 (-1))])
  = [mkPayment 1 "bob123" "alice456" (NewFromInt 10);
     mkPayment 2 "bob123" "alice456" (mkDecimal 5 (-1))].
Proof. reflexivity. Qed.

End scenarios.

(** ** The numbers behind the decimals *)

Section numbers.

Local Open Scope Z_scope.

Lemma ten_nonzero : ¬ Qeq (inject_Z 10) (inject_Z 0).
Proof. intros H. apply inject_Z_injective in H. discriminate. Qed.

(** The number is the coefficient at [e], counted in units of
    [10 ^ e]. *)
Lemma number_coeff e d :
  e <= exp d →
  Qeq (number d) (inject_Z (coeff_at e d) * inject_Z 10 ^ e)%Q.
Proof.
  intros He. unfold number, coeff_at.
  rewrite inject_Z_mult, Zpower_Qpower by lia.
  replace (exp d) with ((exp d - e) + e) at 1 by lia.
  rewrite Qpower_plus by exact ten_nonzero. ring.
Qed.

Lemma number_Sub d d2 :
  Qeq (number (Sub d d2)) (number d - number d2)%Q.
Proof.
  set (e := Z.min (exp d) (exp d2)).
  rewrite (number_coeff e (Sub d d2)) by (rewrite exp_Sub; unfold e; lia).
  rewrite (number_coeff e d), (number_coeff e d2) by (unfold e; lia).
  rewrite coeff_at_Sub by (unfold e; lia).
  unfold Z.sub. rewrite inject_Z_plus, inject_Z_opp. ring.
Qed.

Lemma number_Add d d2 :
  Qeq (number (Add d d2)) (number d + number d2)%Q.
Proof.
  set (e := Z.min (exp d) (exp d2)).
  rewrite (number_coeff e (Add d d2)) by (rewrite exp_Add; unfold e; lia).
  rewrite (number_coeff e d), (number_coeff e d2) by (unfold e; lia).
  rewrite coeff_at_Add by (unfold e; lia).
  rewrite inject_Z_plus. ring.
Qed.

(** [Equal] is the equality of the numbers. *)
Lemma Equal_number d d2 :
  Equal d d2 = true ↔ Qeq (number d) (number d2).
Proof.
  set (e := Z.min (exp d) (exp d2)).
  rewrite (Equal_coeff e) by (unfold e; lia).
  rewrite (number_coeff e d), (number_coeff e d2) by (unfold e; lia).
  split; [by intros ->|].
  intros H. apply Qmult_inj_r in H.
  - apply inject_Z_injective. exact H.
  - apply Qpower_not_0. exact ten_nonzero.
Qed.

End numbers.

(** ** The claims about one call *)

Lemma pk_init_db : pk_accounts init_db.
Proof. unfold pk_accounts. apply (bool_decide_unpack _). by vm_compute. Qed.

Lemma reads_ok_no_faults : reads_ok no_faults.
Proof. by repeat split. Qed.

(** C1 (conservation).  After a successful [SendPayment from to amount]
    the balance of [from] is the old one minus [amount] and the balance
    of [to] the old one plus [amount], exactly: the rational number the
    new source balance stands for is the old number minus the number of
    the amount, the number of the new destination balance is the old
    one plus it, and the two numbers sum to what they summed to before.
    The same holds of the coefficients at any exponent low enough to
    write the three decimals without rounding.  In the terms of the
    library: the new balances are [Sub] and [Add] of the old ones, and
    adding [amount] back to the new source balance gives the old one,
    taking it off the new destination balance gives the old one, and
    the sums agree, all three in the sense of [Decimal.Equal]. *)
Theorem SendPayment_conservation φ from to amount d d' tr :
  pk_accounts d →
  send φ from to amount d = (None, d', tr) →
  ∃ src dst src' dst',
    lookup_account from (accounts d) = Some src ∧
    lookup_account to (accounts d) = Some dst ∧
    lookup_account from (accounts d') = Some src' ∧
    lookup_account to (accounts d') = Some dst' ∧
    Balance src' = Sub (Balance src) amount ∧
    Balance dst' = Add (Balance dst) amount ∧
    Qeq (number (Balance src')) (number (Balance src) - number amount)%Q ∧
    Qeq (number (Balance dst')) (number (Balance dst) + number amount)%Q ∧
    Qeq (number (Balance src') + number (Balance dst'))%Q
        (number (Balance src) + number (Balance dst))%Q ∧
    (∀ e, (e ≤ exp (Balance src))%Z → (e ≤ exp (Balance dst))%Z →
          (e ≤ exp amount)%Z →
       (e ≤ exp (Balance src'))%Z ∧ (e ≤ exp (Balance dst'))%Z ∧
       coeff_at e (Balance src') =
         (coeff_at e (Balance src) - coeff_at e amount)%Z ∧
       coeff_at e (Balance dst') =
         (coeff_at e (Balance dst) + coeff_at e amount)%Z) ∧
    Equal (Add (Balance src') amount) (Balance src) = true ∧
    Equal (Sub (Balance dst') amount) (Balance dst) = true ∧
    Equal (Add (Balance src') (Balance dst'))
          (Add (Balance src) (Balance dst)) = true.
Proof.
  intros Hpk (Hv & src & dst & [Hsin Hsid] & [Hdin Hdid] & _ & _ & -> & _)%send_None.
  destruct Hv as (_ & _ & Hne & _).
  assert (Hs : lookup_account from (accounts d) = Some src)
    by (rewrite <- Hsid; by apply lookup_account_elem).
  assert (Hd : lookup_account to (accounts d) = Some dst)
    by (rewrite <- Hdid; by apply lookup_account_elem).
  exists src, dst,
    (mkAccount from (Sub (Balance src) amount) (Currency src)),
    (mkAccount to (Add (Balance dst) amount) (Currency dst)).
  simpl. repeat split; try done.
  - rewrite lookup_account_update_ne by done.
    by apply lookup_account_update_eq.
  - apply lookup_account_update_eq.
    by rewrite lookup_account_update_ne.
  - apply number_Sub.
  - apply number_Add.
  - rewrite number_Sub, number_Add. ring.
  - rewrite exp_Sub. lia.
  - rewrite exp_Add. lia.
  - by apply coeff_at_Sub.
  - by apply coeff_at_Add.
  - apply Equal_Add_Sub.
  - apply Equal_Sub_Add.
  - apply Equal_Add_Sub_Add.
Qed.

(** On the database of [init-db.sh]: 100.0 less 10 is 90, and 0.01
    more 10 is 10.01. *)
Lemma SendPayment_conservation_witness :
  ∃ src' dst',
    lookup_account "bob123"
      (accounts (send no_faults "bob123" "alice456" (NewFromInt 10) init_db).1.2)
      = Some src' ∧
    lookup_account "alice456"
      (accounts (send no_faults "bob123" "alice456" (NewFromInt 10) init_db).1.2)
      = Some dst' ∧
    Qeq (number (Balance src')) (90 # 1) ∧
    Qeq (number (Balance dst')) (1001 # 100).
Proof.
  destruct (SendPayment_conservation no_faults "bob123" "alice456"
              (NewFromInt 10) init_db
              (send no_faults "bob123" "alice456" (NewFromInt 10) init_db).1.2
              (send no_faults "bob123" "alice456" (NewFromInt 10) init_db).2)
    as (src & dst & src' & dst' & Hs & Hd & Hs' & Hd' & _ & _ & Ns & Nd & _).
  - apply (bool_decide_unpack _). by vm_compute.
  - vm_compute. reflexivity.
  - exists src', dst'. split; [exact Hs'|]. split; [exact Hd'|].
    vm_compute in Hs, Hd. injection Hs as <-. injection Hd as <-.
    split.
    + rewrite Ns. vm_compute. reflexivity.
    + rewrite Nd. vm_compute. reflexivity.
Defined.

(** C2 (atomicity).  Whatever error [SendPayment] returns, for whatever
    reason, the table of accounts and the table of payments are what
    they were before the call.  When it returns [nil] the three writes
    it made are followed by the commit and are in the database.
    Either way no transaction is left open. *)
Theorem SendPayment_atomic φ from to amount d :
  match send φ from to amount d with
  | (Some e, d', tr) =>
      accounts d' = accounts d ∧ payments d' = payments d
  | (None, d', tr) =>
      ∃ reads b1 b2 id,
        tr = reads ++ [EvUpdate b1 from; EvUpdate b2 to;
                       EvInsert from to amount; EvCommit; EvRollback] ∧
        (∀ ev, ev ∈ reads →
           ev = EvBegin ∨ ev = EvQuery from to ∨ ∃ k, ev = EvLock k) ∧
        accounts d' = update_balance b2 to (update_balance b1 from (accounts d)) ∧
        payments d' = payments d ++ [mkPayment id from to amount]
  end ∧
  tx (SendPayment φ from to amount (mkWorld d None [])).2 = None.
Proof.
  split.
  - destruct (send φ from to amount d) as [[[e|] d'] tr] eqn:Hsend.
    + by eapply send_Some.
    + apply send_None in Hsend
        as (_ & src & dst & _ & _ & _ & _ & -> & ->).
      eexists ([EvBegin; EvQuery from to] ++ _), _, _, _. simpl.
      split; [reflexivity|]. split; [|done].
      intros ev [->|[->|Hev]%elem_of_cons]%elem_of_cons; [auto..|].
      apply list_elem_of_fmap in Hev as (a & -> & _). eauto.
  - by run_SendPayment.
Qed.

(** C4 (validation order).  [SendPayment] first rejects an empty
    identifier with [ErrAccountNotSpecified], also when both are empty
    and so equal; then equal identifiers with [ErrSameAccount]; then an
    amount that is zero or negative with [ErrInvalidAmount].  In each
    case the world comes back as it was: no call on the connection is
    logged, no transaction is open, no row is locked. *)
Theorem SendPayment_validation φ from to amount w :
  (from = "" ∨ to = "" →
     SendPayment φ from to amount w = (Err ErrAccountNotSpecified, w)) ∧
  (from ≠ "" → to ≠ "" → from = to →
     SendPayment φ from to amount w = (Err ErrSameAccount, w)) ∧
  (from ≠ "" → to ≠ "" → from ≠ to → (value amount ≤ 0)%Z →
     SendPayment φ from to amount w = (Err ErrInvalidAmount, w)).
Proof.
  unfold SendPayment, fail. repeat split.
  - intros [->| ->]; [done|]. by rewrite orb_true_r.
  - intros H1%String.eqb_neq H2%String.eqb_neq ->.
    by rewrite H1, String.eqb_refl.
  - intros H1%String.eqb_neq H2%String.eqb_neq H3%String.eqb_neq
      H4%IsPositive_false.
    by rewrite H1, H2, H3, H4.
Qed.

Lemma SendPayment_validation_witness :
  SendPayment no_faults "" "" (NewFromInt 1) (mkWorld init_db None [])
    = (Err ErrAccountNotSpecified, mkWorld init_db None []) ∧
  SendPayment no_faults "testid" "testid" (NewFromInt 1) (mkWorld init_db None [])
    = (Err ErrSameAccount, mkWorld init_db None []) ∧
  SendPayment no_faults "testid1" "testid2" (NewFromInt 0) (mkWorld init_db None [])
    = (Err ErrInvalidAmount, mkWorld init_db None []).
Proof.
  split; [|split].
  - apply (SendPayment_validation no_faults "" "" (NewFromInt 1)). by left.
  - by apply (SendPayment_validation no_faults "testid" "testid" (NewFromInt 1)).
  - apply (SendPayment_validation no_faults "testid1" "testid2" (NewFromInt 0));
      [done..|]. simpl. lia.
Defined.

(** C5 (order of the checks inside the transaction).  For a call that
    passed validation and whose reads meet no fault: a missing account
    gives [ErrAccountNotFound]; else two currencies that differ give
    [ErrCurrencyMismatch], whatever the balance; else a source balance
    that would go below zero gives [ErrInsufficientBalance].  The
    database is untouched in all three cases and the transaction is
    rolled back. *)
Theorem SendPayment_check_order φ from to amount d :
  reads_ok φ → pk_accounts d →
  from ≠ "" → to ≠ "" → from ≠ to → IsPositive amount = true →
  ∃ locks,
    let tr := [EvBegin; EvQuery from to] ++ locks ++ [EvRollback] in
    match lookup_account from (accounts d), lookup_account to (accounts d) with
    | Some src, Some dst =>
        (Currency src ≠ Currency dst →
           send φ from to amount d = (Some ErrCurrencyMismatch, d, tr)) ∧
        (Currency src = Currency dst →
         IsNegative (Sub (Balance src) amount) = true →
           send φ from to amount d = (Some ErrInsufficientBalance, d, tr))
    | _, _ => send φ from to amount d = (Some ErrAccountNotFound, d, tr)
    end.
Proof.
  intros Hr Hpk H1 H2 H3 H4.
  pose proof (send_checks φ from to amount d Hr Hpk H1 H2 H3 H4) as Hc.
  eexists. cbn zeta in *.
  destruct (lookup_account from (accounts d)) as [src|]; [|exact Hc].
  destruct (lookup_account to (accounts d)) as [dst|]; [|exact Hc].
  split.
  - intros Hne%String.eqb_neq. by rewrite Hne in Hc.
  - intros Heq%String.eqb_eq Hneg. by rewrite Heq, Hneg in Hc.
Qed.

Lemma SendPayment_check_order_witness :
  ∃ locks,
    send no_faults "alice456" "eve789" (NewFromInt 100) init_db
    = (Some ErrCurrencyMismatch, init_db,
       [EvBegin; EvQuery "alice456" "eve789"] ++ locks ++ [EvRollback]).
Proof.
  destruct (SendPayment_check_order no_faults "alice456" "eve789"
              (NewFromInt 100) init_db)
    as [locks H].
  - by repeat split.
  - apply (bool_decide_unpack _). by vm_compute.
  - done.
  - done.
  - done.
  - reflexivity.
  - exists locks. apply H. done.
Defined.

(** ** Runs of calls *)

Section runs.

Implicit Types (d : DB) (c : Call) (cs : list Call).

Lemma pk_unique d a b :
  pk_accounts d → a ∈ accounts d → b ∈ accounts d → ID a = ID b → a = b.
Proof.
  intros Hpk Ha Hb Hid.
  pose proof (lookup_account_elem _ _ Hpk Ha) as H1.
  pose proof (lookup_account_elem _ _ Hpk Hb) as H2.
  rewrite Hid in H1. congruence.
Qed.

Lemma send_ids φ from to amount d err d' tr :
  send φ from to amount d = (err, d', tr) →
  ID <$> accounts d' = ID <$> accounts d ∧
  Currency <$> accounts d' = Currency <$> accounts d.
Proof.
  destruct err as [e|]; intros Hs.
  - apply send_Some in Hs as [-> _]. done.
  - apply send_None in Hs as (_ & src & dst & _ & _ & _ & _ & -> & _). simpl.
    by rewrite !update_balance_ids, !update_balance_currencies.
Qed.

Lemma step_pk d c : pk_accounts d → pk_accounts (step d c).
Proof.
  unfold step, pk_accounts.
  destruct (send _ _ _ _ d) as [[err d'] tr] eqn:Hs. simpl.
  apply send_ids in Hs as [-> _]. done.
Qed.

Lemma step_nonneg d c : nonneg d → nonneg (step d c).
Proof.
  unfold step, nonneg.
  destruct (send _ _ _ _ d) as [[[e|] d'] tr] eqn:Hs; simpl.
  - apply send_Some in Hs as [-> _]. done.
  - apply send_None in Hs
      as ((_ & _ & _ & Hpos) & src & dst & _ & [Hdin _] & _ & Hnn & -> & _).
    simpl. intros Hd.
    assert (Hdst : IsNegative (Add (Balance dst) (call_amount c)) = false).
    { apply IsNegative_Add_positive; [|done].
      by apply (proj1 (Forall_forall _ _) Hd). }
    unfold update_balance. rewrite <- list_fmap_compose. apply Forall_fmap.
    eapply Forall_impl; [exact Hd|]. intros a Ha. simpl.
    repeat case_decide; done.
Qed.

Lemma step_payments_wf d c : payments_wf d → payments_wf (step d c).
Proof.
  unfold step, payments_wf.
  destruct (send _ _ _ _ d) as [[[e|] d'] tr] eqn:Hs; simpl.
  - apply send_Some in Hs as [_ ->]. done.
  - apply send_None in Hs
      as ((H1 & H2 & _ & _) & src & dst & _ & _ & _ & _ & -> & _).
    simpl. intros Hd. apply Forall_app. split; [done|].
    by apply Forall_singleton.
Qed.

Lemma run_invariant (P : DB → Prop) :
  (∀ d c, P d → P (step d c)) → ∀ cs d, P d → P (run d cs).
Proof.
  intros Hstep cs. unfold run.
  induction cs as [|c cs IH]; intros d Hd; simpl; [done|].
  by apply IH, Hstep.
Qed.

Lemma run_pk d cs : pk_accounts d → pk_accounts (run d cs).
Proof. apply run_invariant. intros; by apply step_pk. Qed.

Lemma run_nonneg d cs : nonneg d → nonneg (run d cs).
Proof. apply run_invariant. intros; by apply step_nonneg. Qed.

Lemma run_payments_wf d cs : payments_wf d → payments_wf (run d cs).
Proof. apply run_invariant. intros; by apply step_payments_wf. Qed.

Lemma nonneg_init_db : nonneg init_db.
Proof. unfold nonneg. simpl. by repeat constructor. Qed.

Lemma send_seq φ from to amount d err d' tr :
  send φ from to amount d = (err, d', tr) →
  (payments_id_seq d ≤ payments_id_seq d')%Z.
Proof. run_SendPayment; lia. Qed.

Lemma step_payments_ordered d c : payments_ordered d → payments_ordered (step d c).
Proof.
  unfold step, payments_ordered.
  destruct (send _ _ _ _ d) as [[[e|] d'] tr] eqn:Hs; simpl.
  - pose proof (send_seq _ _ _ _ _ _ _ _ Hs) as Hseq.
    apply send_Some in Hs as [_ ->]. intros [Hso Hle]. split; [done|].
    eapply Forall_impl; [exact Hle|]. simpl. intros; lia.
  - apply send_None in Hs as (_ & src & dst & _ & _ & _ & _ & -> & _).
    simpl. intros [Hso Hle]. split.
    + apply StronglySorted_app_2; [|done|repeat constructor].
      intros p q Hp ->%list_elem_of_singleton. unfold before. simpl.
      apply (proj1 (Forall_forall _ _) Hle) in Hp. lia.
    + apply Forall_app. split; [|by apply Forall_singleton].
      eapply Forall_impl; [exact Hle|]. simpl. intros; lia.
Qed.

Lemma run_payments_ordered d cs : payments_ordered d → payments_ordered (run d cs).
Proof. apply run_invariant. intros; by apply step_payments_ordered. Qed.

Lemma payments_ordered_init_db : payments_ordered init_db.
Proof. split; simpl; constructor. Qed.

End runs.

(** C3 (no negative balance).  From a database whose balances are all
    non-negative, the database seen after any number of the calls of
    any run, failed or not, has only non-negative balances; and a call
    made there that passes the earlier checks and would take the source
    below zero returns [ErrInsufficientBalance] and leaves that
    database as it is. *)
Theorem no_negative_balance d cs n :
  nonneg d →
  nonneg (run d (take n cs)) ∧
  (∀ φ from to amount src dst,
     let d_n := run d (take n cs) in
     pk_accounts d_n → reads_ok φ →
     from ≠ "" → to ≠ "" → from ≠ to → IsPositive amount = true →
     lookup_account from (accounts d_n) = Some src →
     lookup_account to (accounts d_n) = Some dst →
     Currency src = Currency dst →
     IsNegative (Sub (Balance src) amount) = true →
     ∃ tr, send φ from to amount d_n = (Some ErrInsufficientBalance, d_n, tr)).
Proof.
  intros Hd. split; [by apply run_nonneg|].
  intros φ from to amount src dst d_n Hpk Hr H1 H2 H3 H4 Hs Ht Hc Hneg.
  pose proof (send_checks φ from to amount d_n Hr Hpk H1 H2 H3 H4) as Hk.
  cbn zeta in Hk. rewrite Hs, Ht in Hk.
  apply String.eqb_eq in Hc. rewrite Hc, Hneg in Hk. simpl in Hk. eauto.
Qed.

Lemma no_negative_balance_witness :
  let cs := [mkCall no_faults "bob123" "alice456" (NewFromInt 10)] in
  nonneg (run init_db (take 1 cs)) ∧
  ∃ tr, send no_faults "alice456" "bob123" (NewFromInt 100)
          (run init_db (take 1 cs))
        = (Some ErrInsufficientBalance, run init_db (take 1 cs), tr).
Proof.
  intros cs.
  destruct (no_negative_balance init_db cs 1) as [Hnn Hfail].
  { unfold nonneg. simpl. by repeat constructor. }
  split; [exact Hnn|].
  eapply (Hfail no_faults "alice456" "bob123" (NewFromInt 100)).
  - apply (bool_decide_unpack _). by vm_compute.
  - by repeat split.
  - done.
  - done.
  - done.
  - reflexivity.
  - vm_compute. reflexivity.
  - vm_compute. reflexivity.
  - reflexivity.
  - reflexivity.
Defined.

(** C9 (frame).  Whatever [SendPayment] returns, the identifiers and
    the currencies of all accounts are what they were and every account
    other than the two named in the call is untouched.  On an error both
    tables are unchanged.  On success the row of the source holds the
    old balance minus the amount, the row of the destination the old
    balance plus the amount, both really different from before, every
    other row is the same, and the table of payments is the old one
    with one record appended. *)
Theorem SendPayment_frame φ from to amount d err d' tr :
  pk_accounts d →
  send φ from to amount d = (err, d', tr) →
  ID <$> accounts d' = ID <$> accounts d ∧
  Currency <$> accounts d' = Currency <$> accounts d ∧
  (∀ (i : nat) a, accounts d !! i = Some a →
     ID a ≠ from → ID a ≠ to → accounts d' !! i = Some a) ∧
  match err with
  | Some _ => accounts d' = accounts d ∧ payments d' = payments d
  | None =>
      payments d' =
        payments d ++ [mkPayment (payments_id_seq d + 1) from to amount] ∧
      (∀ (i : nat) a, accounts d !! i = Some a →
         accounts d' !! i =
           Some (if decide (ID a = from)
                 then mkAccount (ID a) (Sub (Balance a) amount) (Currency a)
                 else if decide (ID a = to)
                 then mkAccount (ID a) (Add (Balance a) amount) (Currency a)
                 else a)) ∧
      (∃ (i j : nat) src dst,
         i ≠ j ∧
         accounts d !! i = Some src ∧ ID src = from ∧
         accounts d !! j = Some dst ∧ ID dst = to ∧
         Equal (Sub (Balance src) amount) (Balance src) = false ∧
         Equal (Add (Balance dst) amount) (Balance dst) = false)
  end.
Proof.
  intros Hpk Hs. pose proof (send_ids _ _ _ _ _ _ _ _ Hs) as [Hid Hcur].
  split; [done|]. split; [done|].
  destruct err as [e|].
  - apply send_Some in Hs as [Ha Hp]. rewrite Ha. done.
  - apply send_None in Hs
      as ((_ & _ & Hne & Hpos) & src & dst & [Hsin Hsid] & [Hdin Hdid]
          & _ & _ & -> & _).
    simpl.
    assert (Hrow : ∀ (i : nat) a, accounts d !! i = Some a →
      update_balance (Add (Balance dst) amount) to
        (update_balance (Sub (Balance src) amount) from (accounts d)) !! i =
      Some (if decide (ID a = from)
            then mkAccount (ID a) (Sub (Balance a) amount) (Currency a)
            else if decide (ID a = to)
            then mkAccount (ID a) (Add (Balance a) amount) (Currency a)
            else a)).
    { intros i a Hi.
      assert (Hin : a ∈ accounts d) by (apply list_elem_of_lookup; eauto).
      erewrite update_balance_lookup
        by (by apply update_balance_lookup). f_equal.
      destruct (decide (ID a = from)) as [Hf|Hf]; simpl.
      - rewrite decide_False by congruence.
        by rewrite (pk_unique d a src Hpk Hin Hsin) by congruence.
      - destruct (decide (ID a = to)) as [Ht|Ht]; [|done].
        by rewrite (pk_unique d a dst Hpk Hin Hdin) by congruence. }
    split; [|split; [done|split; [done|]]].
    + intros i a Hi Hf Ht. rewrite (Hrow i a Hi).
      by rewrite !decide_False.
    + apply list_elem_of_lookup in Hsin as [i Hi].
      apply list_elem_of_lookup in Hdin as [j Hj].
      exists i, j, src, dst. repeat split; try done.
      * intros ->. congruence.
      * by apply Equal_Sub_positive.
      * by apply Equal_Add_positive.
Qed.

Lemma SendPayment_frame_witness :
  let d' := (send no_faults "bob123" "alice456" (NewFromInt 10) init_db).1.2 in
  ID <$> accounts d' = ID <$> accounts init_db ∧
  Currency <$> accounts d' = Currency <$> accounts init_db ∧
  accounts d' !! 2%nat = accounts init_db !! 2%nat ∧
  payments d' = [mkPayment 1 "bob123" "alice456" (NewFromInt 10)].
Proof.
  intros d'.
  destruct (SendPayment_frame no_faults "bob123" "alice456" (NewFromInt 10)
              init_db None d'
              (send no_faults "bob123" "alice456" (NewFromInt 10) init_db).2)
    as (Hid & Hcur & Hother & Hpay & _).
  { apply (bool_decide_unpack _). by vm_compute. }
  { by vm_compute. }
  split; [exact Hid|]. split; [exact Hcur|]. split; [|exact Hpay].
  apply Hother; [reflexivity|done..].
Defined.

(** ** The listing of payments *)

Section listing.

Implicit Types (l : list Payment) (p : Payment).

Global Instance by_payment_id_total : Total by_payment_id.
Proof. intros p q. unfold by_payment_id. lia. Qed.

Global Instance by_id_total : Total by_id.
Proof. intros a b. unfold by_id. apply total, _. Qed.

Global Instance by_payment_id_trans : Transitive by_payment_id.
Proof. intros p q r. unfold by_payment_id. lia. Qed.

Lemma before_unique l p q :
  StronglySorted before l → p ∈ l → q ∈ l → PaymentID p = PaymentID q → p = q.
Proof.
  induction 1 as [|x l Hs IH Hx]; intros Hp Hq Heq.
  - by apply elem_of_nil in Hp.
  - rewrite Forall_forall in Hx. unfold before in Hx.
    apply elem_of_cons in Hp as [->|Hp]; apply elem_of_cons in Hq as [->|Hq].
    + done.
    + apply Hx in Hq. lia.
    + apply Hx in Hp. lia.
    + by apply IH.
Qed.

Lemma before_by_payment_id l :
  StronglySorted before l → StronglySorted by_payment_id l.
Proof.
  induction 1 as [|x l Hs IH Hx]; constructor; [done|].
  eapply Forall_impl; [exact Hx|]. unfold before, by_payment_id. intros; lia.
Qed.

(** A table in commit order is listed as it is. *)
Lemma select_payments_ordered l :
  StronglySorted before l → select_payments l = l.
Proof.
  intros Hl. unfold select_payments.
  apply (StronglySorted_unique_strong by_payment_id).
  - intros p q Hp Hq H1 H2. rewrite merge_sort_Permutation in Hp.
    apply (before_unique l); [done..|].
    unfold by_payment_id in *. lia.
  - apply StronglySorted_merge_sort; apply _.
  - by apply before_by_payment_id.
  - apply merge_sort_Permutation.
Qed.

Lemma ListPayments_loop_no_fault φ i l acc :
  scan_err φ = None →
  ListPayments_loop φ i (row_of_payment <$> l) acc = Ok (acc ++ l).
Proof.
  intros Hs. revert i acc.
  induction l as [|[id f t amt] l IH]; intros i acc; simpl.
  - by rewrite app_nil_r.
  - rewrite Hs, IH. by rewrite <- app_assoc.
Qed.

Lemma list_payments_ok φ d :
  query_err φ = None → next_stop φ = None → scan_err φ = None →
  list_payments φ d =
    mkListPaymentsResponse (payment_items (select_payments (payments d))) None.
Proof.
  intros Hq Hn Hs.
  unfold list_payments, listPaymentsEndpoint, ListPayments, db_Query_payments.
  unfold_M. unfold delivered. rewrite Hq, Hn. simpl.
  by rewrite ListPayments_loop_no_fault.
Qed.

Lemma payment_items_snoc l p :
  payment_items (l ++ [p]) =
    payment_items l ++ [outgoing_item p; incoming_item p].
Proof.
  unfold payment_items. rewrite foldl_snoc. by rewrite <- app_assoc.
Qed.

Lemma payment_items_length l : length (payment_items l) = 2 * length l.
Proof.
  induction l as [|p l IH] using rev_ind; [done|].
  rewrite payment_items_snoc, !length_app, IH. simpl. lia.
Qed.

Lemma payment_items_lookup l (i : nat) p :
  l !! i = Some p →
  payment_items l !! (2 * i) = Some (outgoing_item p) ∧
  payment_items l !! (2 * i + 1) = Some (incoming_item p).
Proof.
  induction l as [|q l IH] using rev_ind; [done|].
  rewrite payment_items_snoc. intros Hi.
  apply lookup_app_Some in Hi as [Hi|[Hlen Hi]].
  - pose proof (lookup_lt_Some _ _ _ Hi) as Hlt.
    destruct (IH Hi) as [H1 H2].
    rewrite !lookup_app_l by (rewrite payment_items_length; lia). done.
  - apply list_lookup_singleton_Some in Hi as [Hz ->].
    assert (i = length l) as -> by lia.
    rewrite !lookup_app_r by (rewrite payment_items_length; lia).
    rewrite payment_items_length.
    replace (2 * length l - 2 * length l) with 0 by lia.
    replace (2 * length l + 1 - 2 * length l) with 1 by lia. done.
Qed.

Lemma payment_items_outgoing l :
  filter (λ it, item_Direction it = "outgoing") (payment_items l) =
    outgoing_item <$> l.
Proof.
  induction l as [|p l IH] using rev_ind; [done|].
  rewrite payment_items_snoc, filter_app, IH, fmap_app. f_equal.
Qed.

Lemma payment_items_incoming l :
  filter (λ it, item_Direction it = "incoming") (payment_items l) =
    incoming_item <$> l.
Proof.
  induction l as [|p l IH] using rev_ind; [done|].
  rewrite payment_items_snoc, filter_app, IH, fmap_app. f_equal.
Qed.

End listing.

(** C7 (the listing as a view).  When the read meets no fault, the
    records listed are those of the table of payments, sorted by
    identifier, which is the order they were committed in when the
    table has them in that order (as every table grown by
    [SendPayment] has); the view has twice as many entries as there are
    records; its outgoing entries are, record by record and in that
    order, the source account with the amount of the record, and its
    incoming entries the destination account with the same amount. *)
Theorem list_payments_view φ d :
  query_err φ = None → next_stop φ = None → scan_err φ = None →
  let records := select_payments (payments d) in
  let view := list_payments φ d in
  resp_Err view = None ∧
  records ≡ₚ payments d ∧
  Sorted by_payment_id records ∧
  (payments_ordered d → records = payments d) ∧
  length (resp_Payments view) = 2 * length (payments d) ∧
  (λ it, (item_Account it, item_Amount it))
    <$> filter (λ it, item_Direction it = "outgoing") (resp_Payments view)
    = (λ p, (FromAccountID p, Amount p)) <$> records ∧
  (λ it, (item_Account it, item_Amount it))
    <$> filter (λ it, item_Direction it = "incoming") (resp_Payments view)
    = (λ p, (ToAccountID p, Amount p)) <$> records ∧
  (∀ it, it ∈ resp_Payments view →
     item_Direction it = "outgoing" ∨ item_Direction it = "incoming").
Proof.
  intros Hq Hn Hs records view. subst view.
  rewrite list_payments_ok by done. simpl. subst records.
  split; [done|].
  split; [apply merge_sort_Permutation|].
  split; [apply Sorted_merge_sort, _|].
  split; [intros [Hso _]; by apply select_payments_ordered|].
  split.
  { rewrite payment_items_length. f_equal.
    unfold select_payments. by rewrite merge_sort_Permutation. }
  split; [by rewrite payment_items_outgoing, <- list_fmap_compose|].
  split; [by rewrite payment_items_incoming, <- list_fmap_compose|].
  intros it [k Hk]%list_elem_of_lookup.
  pose proof (lookup_lt_Some _ _ _ Hk) as Hlt.
  rewrite payment_items_length in Hlt.
  destruct (lookup_lt_is_Some_2 (select_payments (payments d)) (k / 2))
    as [p Hp]; [apply Nat.Div0.div_lt_upper_bound; lia|].
  destruct (payment_items_lookup _ _ _ Hp) as [H1 H2].
  destruct (Nat.eq_dec (k mod 2) 0) as [Hm|Hm].
  - left. replace k with (2 * (k / 2)) in Hk
      by (pose proof (Nat.div_mod_eq k 2); lia).
    by simplify_eq.
  - right. replace k with (2 * (k / 2) + 1) in Hk
      by (pose proof (Nat.div_mod_eq k 2);
          pose proof (Nat.mod_upper_bound k 2); lia).
    by simplify_eq.
Qed.

Lemma list_payments_view_witness :
  let d := run init_db
             [mkCall no_faults "bob123" "alice456" (NewFromInt 10);
              mkCall no_faults "bob123" "alice456" (mkDecimal 5 (-1))] in
  length (resp_Payments (list_payments no_faults d)) = 4 ∧
  (λ it, (item_Account it, item_Amount it))
    <$> filter (λ it, item_Direction it = "outgoing")
          (resp_Payments (list_payments no_faults d))
    = [("bob123", NewFromInt 10); ("bob123", mkDecimal 5 (-1))] ∧
  (λ it, (item_Account it, item_Amount it))
    <$> filter (λ it, item_Direction it = "incoming")
          (resp_Payments (list_payments no_faults d))
    = [("alice456", NewFromInt 10); ("alice456", mkDecimal 5 (-1))].
Proof.
  intros d.
  destruct (list_payments_view no_faults d eq_refl eq_refl eq_refl)
    as (_ & _ & _ & _ & Hlen & Hout & Hin & _).
  split; [exact Hlen|]. split; [exact Hout|exact Hin].
Defined.

(** C10 (positions and fields of the entries).  In a database reached
    by any run of calls from one whose payment records name two
    accounts (the empty table of [init-db.sh] is one), and when the
    read meets no fault: the record at position [i] of the listing
    gives the outgoing entry at position [2 * i] and the incoming entry
    at position [2 * i + 1]; the outgoing entry is written with
    [to_account] and without [from_account], the incoming entry with
    [from_account] and without [to_account]. *)
Theorem list_payments_positions φ d0 cs (i : nat) p :
  payments_wf d0 →
  query_err φ = None → next_stop φ = None → scan_err φ = None →
  select_payments (payments (run d0 cs)) !! i = Some p →
  ∃ out inc,
    resp_Payments (list_payments φ (run d0 cs)) !! (2 * i) = Some out ∧
    resp_Payments (list_payments φ (run d0 cs)) !! (2 * i + 1) = Some inc ∧
    paymentItem_json out =
      [("account", JString (FromAccountID p));
       ("amount", JDecimal (Amount p));
       ("to_account", JString (ToAccountID p));
       ("direction", JString "outgoing")] ∧
    paymentItem_json inc =
      [("account", JString (ToAccountID p));
       ("amount", JDecimal (Amount p));
       ("from_account", JString (FromAccountID p));
       ("direction", JString "incoming")] ∧
    has_member "from_account" (paymentItem_json out) = false ∧
    has_member "to_account" (paymentItem_json inc) = false.
Proof.
  intros Hwf Hq Hn Hs Hi.
  rewrite list_payments_ok by done. simpl.
  destruct (payment_items_lookup _ _ _ Hi) as [H1 H2].
  exists (outgoing_item p), (incoming_item p).
  split; [done|]. split; [done|].
  assert (Hp : FromAccountID p ≠ "" ∧ ToAccountID p ≠ "").
  { apply (run_payments_wf d0 cs) in Hwf.
    apply (proj1 (Forall_forall _ _) Hwf).
    apply list_elem_of_lookup_2 in Hi.
    unfold select_payments in Hi. by rewrite merge_sort_Permutation in Hi. }
  destruct Hp as [Hf%String.eqb_neq Ht%String.eqb_neq].
  unfold paymentItem_json, omitempty, has_member. simpl.
  by rewrite Hf, Ht.
Qed.

Lemma payments_wf_init_db : payments_wf init_db.
Proof. by apply Forall_nil. Qed.

Lemma list_payments_positions_witness :
  let cs := [mkCall no_faults "bob123" "alice456" (NewFromInt 10);
             mkCall no_faults "bob123" "alice456" (mkDecimal 5 (-1))] in
  let p := mkPayment 2 "bob123" "alice456" (mkDecimal 5 (-1)) in
  ∃ out inc,
    resp_Payments (list_payments no_faults (run init_db cs)) !! 2%nat = Some out ∧
    resp_Payments (list_payments no_faults (run init_db cs)) !! 3%nat = Some inc ∧
    paymentItem_json out =
      [("account", JString "bob123");
       ("amount", JDecimal (mkDecimal 5 (-1)));
       ("to_account", JString "alice456");
       ("direction", JString "outgoing")] ∧
    paymentItem_json inc =
      [("account", JString "alice456");
       ("amount", JDecimal (mkDecimal 5 (-1)));
       ("from_account", JString "bob123");
       ("direction", JString "incoming")] ∧
    has_member "from_account" (paymentItem_json out) = false ∧
    has_member "to_account" (paymentItem_json inc) = false.
Proof.
  intros cs p.
  apply (list_payments_positions no_faults init_db cs 1 p);
    [by apply Forall_nil | reflexivity | reflexivity | reflexivity |].
  by vm_compute.
Defined.

(** ** The transport *)

(** C8 (errors to HTTP).  [codeFrom] sends [ErrMalformedJSON] and
    [ErrAccountNotSpecified] to 400, [ErrSameAccount],
    [ErrInvalidAmount], [ErrCurrencyMismatch] and
    [ErrInsufficientBalance] to 403, [ErrAccountNotFound] to 404 and
    every other error to 500; [encodeError] answers a 500 with the
    text "internal server error" whatever the error said, and any other
    status with the text of the error itself.  Status and text are
    those of the table of the specification. *)
Theorem error_to_http e :
  codeFrom (Some e) =
    match e with
    | ErrMalformedJSON | ErrAccountNotSpecified => 400
    | ErrSameAccount | ErrInvalidAmount
    | ErrCurrencyMismatch | ErrInsufficientBalance => 403
    | ErrAccountNotFound => 404
    | ErrDriver _ => 500
    end%Z ∧
  encodeError (Some e) =
    Returns (mkResponse (codeFrom (Some e))
               [("error",
                 JString match e with
                         | ErrDriver _ => "internal server error"
                         | _ => Error e
                         end)]) ∧
  (codeFrom (Some e), match e with
                      | ErrDriver _ => "internal server error"
                      | _ => Error e
                      end) = spec_error_table e.
Proof. by destruct e. Qed.

(** ** The order of the row locks *)

(** The rows [SELECT ... ORDER BY id FOR UPDATE] locks come sorted by
    identifier, and are the same rows in the same order whichever of
    the two accounts is the source. *)
Lemma select_accounts_sorted id1 id2 (t : list Account) :
  Sorted by_id (select_accounts id1 id2 t).
Proof. apply Sorted_merge_sort, _. Qed.

Lemma select_accounts_comm id1 id2 (t : list Account) :
  select_accounts id1 id2 t = select_accounts id2 id1 t.
Proof.
  unfold select_accounts. f_equal.
  induction t as [|a t IH]; [done|].
  rewrite !filter_cons, IH.
  destruct (decide (ID a = id1 ∨ ID a = id2)),
           (decide (ID a = id2 ∨ ID a = id1)); tauto.
Qed.

Lemma omap_locks (l : list Account) :
  omap (λ ev, match ev with EvLock id => Some id | _ => None end)
    (EvLock ∘ ID <$> l) = ID <$> l.
Proof. induction l as [|a l IH]; [done|]. simpl. f_equal. exact IH. Qed.

Lemma SendPayment_lock_order φ from to amount d err d' tr :
  send φ from to amount d = (err, d', tr) →
  EvBegin ∈ tr →
  begin_err φ = None → query_err φ = None →
  omap (λ ev, match ev with EvLock id => Some id | _ => None end) tr
    = ID <$> delivered φ (select_accounts from to (accounts d)).
Proof.
  run_SendPayment;
    try (by match goal with H : _ ∈ [] |- _ => apply elem_of_nil in H end);
    rewrite ?omap_app, omap_locks; simpl; by rewrite ?app_nil_r.
Qed.

(** * More of the service *)

(** ** When [SendPayment] succeeds, and what its errors mean *)

Section outcomes.

Implicit Types (φ : Faults) (from to : string) (amount : Decimal) (d : DB).

Lemma send_commits φ from to amount d src dst :
  reads_ok φ → writes_ok φ → pk_accounts d →
  from ≠ "" → to ≠ "" → from ≠ to → IsPositive amount = true →
  lookup_account from (accounts d) = Some src →
  lookup_account to (accounts d) = Some dst →
  Currency src = Currency dst →
  IsNegative (Sub (Balance src) amount) = false →
  (send φ from to amount d).1 =
    (None,
     mkDB (update_balance (Add (Balance dst) amount) to
             (update_balance (Sub (Balance src) amount) from (accounts d)))
          (payments d ++ [mkPayment (payments_id_seq d + 1) from to amount])
          (payments_id_seq d + 1)).
Proof.
  intros Hr (W1 & W2 & W3 & W4) Hpk H1 H2 H3 H4 Hs Ht Hc Hn.
  destruct (validation_passes _ _ _ H1 H2 H3 H4) as (V1 & V2 & V3).
  pose proof (fetched_all φ from to d Hr) as Hg.
  pose proof (accountsByID_select from to from _ Hpk (or_introl eq_refl)) as Hf.
  pose proof (accountsByID_select from to to _ Hpk (or_intror eq_refl)) as Hg'.
  apply lookup_account_Some in Hs as Hsrc. apply lookup_account_Some in Ht as Hdst.
  destruct Hsrc as [_ Hsid], Hdst as [_ Hdid].
  destruct Hr as (Hb & Hq & _ & _).
  apply String.eqb_eq in Hc.
  unfold send, SendPayment. rewrite V1, V2, V3. unfold_M.
  rewrite Hb, Hq. simpl. rewrite Hg, Hf, Hg', Hs, Ht. simpl.
  rewrite Hc, Hn, W1. simpl. rewrite W2. simpl. rewrite W3. simpl.
  rewrite W4. simpl. by rewrite Hsid, Hdid.
Qed.

Lemma send_locks φ from to amount d :
  begin_err φ = None → query_err φ = None →
  from ≠ "" → to ≠ "" → from ≠ to → IsPositive amount = true →
  locks_of (send φ from to amount d).2 =
    ID <$> delivered φ (select_accounts from to (accounts d)).
Proof.
  intros Hb Hq H1 H2 H3 H4.
  destruct (validation_passes _ _ _ H1 H2 H3 H4) as (V1 & V2 & V3).
  unfold send, SendPayment. rewrite V1, V2, V3. unfold_M. rewrite Hb, Hq.
  unfold locks_of.
  repeat (case_match; simplify_eq/=);
    rewrite ?omap_app, omap_locks; simpl; by rewrite ?app_nil_r.
Qed.

End outcomes.

(** X1.  A call that passes validation, finds both accounts with the
    same currency and enough money on the source, and meets no fault
    of the driver, returns [nil]; the database then holds the two new
    balances and one more payment record, numbered by the sequence. *)
Theorem SendPayment_succeeds φ from to amount d src dst :
  reads_ok φ → writes_ok φ → pk_accounts d →
  from ≠ "" → to ≠ "" → from ≠ to → IsPositive amount = true →
  lookup_account from (accounts d) = Some src →
  lookup_account to (accounts d) = Some dst →
  Currency src = Currency dst →
  IsNegative (Sub (Balance src) amount) = false →
  (send φ from to amount d).1 =
    (None,
     mkDB (update_balance (Add (Balance dst) amount) to
             (update_balance (Sub (Balance src) amount) from (accounts d)))
          (payments d ++ [mkPayment (payments_id_seq d + 1) from to amount])
          (payments_id_seq d + 1)).
Proof. apply send_commits. Qed.

Lemma SendPayment_succeeds_witness :
  (send no_faults "bob123" "alice456" (mkDecimal 1000 (-1)) init_db).1 =
    (None,
     mkDB (update_balance (Add (mkDecimal 1 (-2)) (mkDecimal 1000 (-1))) "alice456"
             (update_balance (Sub (mkDecimal 1000 (-1)) (mkDecimal 1000 (-1)))
                "bob123" (accounts init_db)))
          (payments init_db
             ++ [mkPayment (payments_id_seq init_db + 1) "bob123" "alice456"
                   (mkDecimal 1000 (-1))])
          (payments_id_seq init_db + 1)).
Proof.
  apply (SendPayment_succeeds no_faults "bob123" "alice456"
           (mkDecimal 1000 (-1)) init_db
           (mkAccount "bob123" (mkDecimal 1000 (-1)) "USD")
           (mkAccount "alice456" (mkDecimal 1 (-2)) "USD")).
  - by repeat split.
  - by repeat split.
  - apply (bool_decide_unpack _). by vm_compute.
  - done.
  - done.
  - done.
  - reflexivity.
  - reflexivity.
  - reflexivity.
  - reflexivity.
  - reflexivity.
Defined.

(** X2.  No error of [SendPayment] is spurious.  Each sentinel error
    is returned only in the situation it names: an empty identifier,
    equal identifiers, an amount that is not positive, two accounts
    whose currencies differ, a source that cannot pay.  A driver error
    carries the text of a call that failed.  [ErrAccountNotFound]
    means an account is missing as long as the cursor delivered all
    the rows; [ErrMalformedJSON] is never returned. *)
Theorem SendPayment_errors_sound φ from to amount d e d' tr :
  pk_accounts d →
  send φ from to amount d = (Some e, d', tr) →
  match e with
  | ErrAccountNotSpecified => from = "" ∨ to = ""
  | ErrSameAccount => from ≠ "" ∧ from = to
  | ErrInvalidAmount =>
      from ≠ "" ∧ to ≠ "" ∧ from ≠ to ∧ (value amount ≤ 0)%Z
  | ErrAccountNotFound =>
      next_stop φ = None →
      lookup_account from (accounts d) = None ∨
      lookup_account to (accounts d) = None
  | ErrCurrencyMismatch =>
      ∃ src dst,
        lookup_account from (accounts d) = Some src ∧
        lookup_account to (accounts d) = Some dst ∧
        Currency src ≠ Currency dst
  | ErrInsufficientBalance =>
      ∃ src dst,
        lookup_account from (accounts d) = Some src ∧
        lookup_account to (accounts d) = Some dst ∧
        Currency src = Currency dst ∧
        IsNegative (Sub (Balance src) amount) = true
  | ErrMalformedJSON => False
  | ErrDriver msg =>
      begin_err φ = Some msg ∨ query_err φ = Some msg ∨
      (∃ i, scan_err φ = Some (i, msg)) ∨
      exec_from_err φ = Some msg ∨ exec_to_err φ = Some msg ∨
      exec_insert_err φ = Some msg ∨ commit_err φ = Some msg
  end.
Proof.
  intros Hpk. unfold send, SendPayment.
  destruct ((from =? "")%string || (to =? "")%string) eqn:V1.
  { unfold fail. intros [= <- _ _].
    apply orb_true_iff in V1 as [V%String.eqb_eq|V%String.eqb_eq]; auto. }
  destruct (from =? to)%string eqn:V2.
  { unfold fail. intros [= <- _ _].
    apply orb_false_iff in V1 as [V1 _].
    by rewrite String.eqb_neq in V1; rewrite String.eqb_eq in V2. }
  destruct (negb (IsPositive amount)) eqn:V3.
  { unfold fail. intros [= <- _ _].
    apply orb_false_iff in V1 as [V1 V1'].
    rewrite String.eqb_neq in V1, V1', V2.
    by apply negb_true_iff, IsPositive_false in V3. }
  unfold_M.
  destruct (begin_err φ) as [m|] eqn:Hb; simpl; [intros [= <- _ _]; auto|].
  destruct (query_err φ) as [m|] eqn:Hq; simpl; [intros [= <- _ _]; auto|].
  destruct (getAccounts _ _) as [fetched|e0] eqn:Hg; simpl.
  2:{ intros [= <- _ _]. revert Hg. rewrite delivered_accounts.
      unfold getAccounts. generalize (@nil Account), 0%nat.
      induction (delivered φ _) as [|[id b c] l IH]; intros acc i; simpl; [done|].
      destruct (scan_err φ) as [[j msg]|] eqn:Hs; [|apply IH].
      case_decide; [|apply IH]. intros [= <-]. eauto 10. }
  match goal with
  | |- context [?m !! from] => destruct (m !! from) as [a2|] eqn:Hf
  end; simpl.
  2:{ intros [= <- _ _]; intros Hn; left;
        rewrite <- (accountsByID_select from to from _ Hpk (or_introl eq_refl));
        revert Hg; rewrite delivered_accounts; unfold delivered; rewrite Hn;
        intros ->%getAccounts_Ok; done. }
  match goal with
  | |- context [?m !! to] => destruct (m !! to) as [a3|] eqn:Ht
  end; simpl.
  2:{ intros [= <- _ _]; intros Hn; right;
        rewrite <- (accountsByID_select from to to _ Hpk (or_intror eq_refl));
        revert Hg; rewrite delivered_accounts; unfold delivered; rewrite Hn;
        intros ->%getAccounts_Ok; done. }
  destruct (fetched_account _ _ _ _ _ _ _ Hg Hf) as [Hfin Hfid].
  destruct (fetched_account _ _ _ _ _ _ _ Hg Ht) as [Htin Htid].
  assert (Hs : lookup_account from (accounts d) = Some a2)
    by (rewrite <- Hfid; by apply lookup_account_elem).
  assert (Hd : lookup_account to (accounts d) = Some a3)
    by (rewrite <- Htid; by apply lookup_account_elem).
  destruct (Currency a2 =? Currency a3)%string eqn:Hc; simpl.
  2:{ intros [= <- _ _]. apply String.eqb_neq in Hc. eauto. }
  apply String.eqb_eq in Hc.
  destruct (IsNegative _) eqn:Hneg; simpl.
  { intros [= <- _ _]. eauto 10. }
  repeat (case_match; simplify_eq/=); intros; simplify_eq/=; auto 10.
Qed.

Lemma SendPayment_errors_sound_witness :
  ∃ src dst,
    lookup_account "alice456" (accounts init_db) = Some src ∧
    lookup_account "bob123" (accounts init_db) = Some dst ∧
    Currency src = Currency dst ∧
    IsNegative (Sub (Balance src) (NewFromInt 100)) = true.
Proof.
  eapply (SendPayment_errors_sound no_faults "alice456" "bob123"
            (NewFromInt 100) init_db ErrInsufficientBalance).
  - apply (bool_decide_unpack _). by vm_compute.
  - vm_compute. reflexivity.
Defined.

(** ** The calls [SendPayment] makes on the connection *)

Lemma locks_no_write (l : list Account) :
  Forall (λ ev, is_write ev = false) (EvLock ∘ ID <$> l).
Proof. apply Forall_fmap, Forall_true. done. Qed.

(** X3.  [SendPayment] makes no call at all, or a [Begin] that fails,
    or opens a transaction and ends with [Rollback], deferred on every
    path.  When it returns one of its own errors it has attempted no
    write and no commit; when it returns [nil] it has committed. *)
Theorem SendPayment_trace_discipline φ from to amount d :
  let '(err, _, tr) := send φ from to amount d in
  (tr = [] ∨ tr = [EvBegin] ∨
   (head tr = Some EvBegin ∧ last tr = Some EvRollback)) ∧
  (∀ e, err = Some e → (∀ msg, e ≠ ErrDriver msg) →
     Forall (λ ev, is_write ev = false) tr) ∧
  (err = None → EvCommit ∈ tr).
Proof.
  run_SendPayment.
  all: split; [|split].
  all: try (intros ? [= <-] Hnd; try (by destruct (Hnd _ eq_refl));
            repeat first [ apply Forall_nil_2
                         | apply Forall_cons; split; [done|]
                         | apply Forall_app; split
                         | apply locks_no_write ]).
  all: try (intros; discriminate).
  all: try (by left).
  all: try (by right; left).
  all: try (right; right; split; [reflexivity|];
            first [reflexivity | by rewrite !last_cons, last_snoc]).
  intros _. do 2 (apply elem_of_cons; right).
  apply elem_of_app; left. apply elem_of_app; right.
  by apply list_elem_of_singleton.
Qed.

(** X4.  The rows a transfer locks follow one order, that of their
    identifiers, which does not depend on the direction of the
    transfer: the rows of the two accounts that exist, each once,
    sorted.  A transfer locks the first rows of that list, all of them
    unless its cursor stopped early; a transfer in the other direction
    between the same two accounts locks along the same list. *)
Theorem SendPayment_locks_canonical φ φ' from to amount amount' d :
  pk_accounts d →
  begin_err φ = None → query_err φ = None →
  begin_err φ' = None → query_err φ' = None →
  from ≠ "" → to ≠ "" → from ≠ to →
  IsPositive amount = true → IsPositive amount' = true →
  ∃ order,
    Sorted String.le order ∧
    NoDup order ∧
    (∀ id, id ∈ order ↔
       (id = from ∨ id = to) ∧ is_Some (lookup_account id (accounts d))) ∧
    locks_of (send φ from to amount d).2 `prefix_of` order ∧
    locks_of (send φ' to from amount' d).2 `prefix_of` order ∧
    (next_stop φ = None → locks_of (send φ from to amount d).2 = order) ∧
    (next_stop φ' = None → locks_of (send φ' to from amount' d).2 = order).
Proof.
  intros Hpk Hb Hq Hb' Hq' H1 H2 H3 H4 H4'.
  exists (ID <$> select_accounts from to (accounts d)).
  rewrite !send_locks by done.
  rewrite (select_accounts_comm to from).
  assert (Hpre : ∀ ψ, ID <$> delivered ψ (select_accounts from to (accounts d))
                      `prefix_of` ID <$> select_accounts from to (accounts d)).
  { intros ψ. unfold delivered. destruct (next_stop ψ); [|done].
    rewrite fmap_take. apply prefix_take. }
  split; [eapply Sorted_fmap, select_accounts_sorted; by intros a b|].
  split; [by apply NoDup_select_accounts|].
  split.
  { intros id. rewrite list_elem_of_fmap. split.
    - intros (a & -> & [Hin Hid]%elem_of_select_accounts).
      split; [done|]. exists a. by apply lookup_account_elem.
    - intros [Hid [a [Hin <-]%lookup_account_Some]].
      exists a. split; [done|]. by apply elem_of_select_accounts. }
  split; [apply Hpre|]. split; [apply Hpre|].
  split; unfold delivered; by intros ->.
Qed.

Lemma SendPayment_locks_canonical_witness :
  locks_of (send no_faults "bob123" "alice456" (NewFromInt 10) init_db).2
    = ["alice456"; "bob123"] ∧
  locks_of (send no_faults "alice456" "bob123" (NewFromInt 1) init_db).2
    = ["alice456"; "bob123"] ∧
  locks_of (send (mkFaults None None (Some 1%nat) None None None None None)
              "alice456" "bob123" (NewFromInt 1) init_db).2
    `prefix_of` ["alice456"; "bob123"].
Proof.
  destruct (SendPayment_locks_canonical no_faults
              (mkFaults None None (Some 1%nat) None None None None None)
              "bob123" "alice456" (NewFromInt 10) (NewFromInt 1) init_db)
    as (order & _ & _ & _ & _ & Hcut & Hall & _);
    [apply (bool_decide_unpack _); by vm_compute | done..|].
  split; [reflexivity|]. split; [reflexivity|].
  rewrite <- (Hall eq_refl) in Hcut. exact Hcut.
Defined.

(** ** The ledger along a run of calls *)

Section ledger.

Implicit Types (d : DB) (c : Call) (cs : list Call).

Lemma account_eta (a : Account) : mkAccount (ID a) (Balance a) (Currency a) = a.
Proof. by destruct a. Qed.

Lemma step_ledger d c :
  pk_accounts d →
  ∃ new,
    payments (step d c) = payments d ++ new ∧
    ∀ a, a ∈ accounts d →
      lookup_account (ID a) (accounts (step d c)) =
        Some (mkAccount (ID a) (apply_payments (ID a) (Balance a) new)
                (Currency a)).
Proof.
  intros Hpk. unfold step.
  destruct (send _ _ _ _ d) as [[[e|] d'] tr] eqn:Hs; simpl.
  - apply send_Some in Hs as [Ha Hp]. exists []. rewrite Ha, Hp, app_nil_r.
    split; [done|]. intros a Hin. simpl. rewrite account_eta.
    by apply lookup_account_elem.
  - apply send_None in Hs
      as ((_ & _ & Hne & _) & src & dst & [Hsin Hsid] & [Hdin Hdid]
          & _ & _ & -> & _).
    simpl. eexists. split; [reflexivity|]. intros a Hin.
    unfold apply_payments, apply_payment. simpl.
    pose proof (lookup_account_elem _ _ Hpk Hin) as Hl.
    destruct (decide (call_from c = ID a)) as [Hf|Hf].
    + rewrite decide_False by congruence.
      assert (a = src) as -> by (apply (pk_unique d); congruence).
      rewrite lookup_account_update_ne by congruence.
      rewrite <- Hf. apply lookup_account_update_eq. by rewrite Hf.
    + destruct (decide (call_to c = ID a)) as [Ht|Ht].
      * assert (a = dst) as -> by (apply (pk_unique d); congruence).
        rewrite <- Ht. apply lookup_account_update_eq.
        rewrite lookup_account_update_ne by congruence. by rewrite Ht.
      * rewrite !lookup_account_update_ne by congruence.
        by rewrite account_eta.
Qed.

End ledger.

(** X5.  Payments are only ever appended, and the ledger accounts for
    every balance: after any run of calls, failed or not, the table of
    payments is the old one followed by the new records, and each
    account holds exactly its old balance with the new records applied
    in order, the amount subtracted where it is the sender and added
    where it is the receiver. *)
Theorem ledger_consistency d cs :
  pk_accounts d →
  ∃ new,
    payments (run d cs) = payments d ++ new ∧
    ∀ a, a ∈ accounts d →
      lookup_account (ID a) (accounts (run d cs)) =
        Some (mkAccount (ID a) (apply_payments (ID a) (Balance a) new)
                (Currency a)).
Proof.
  revert d. induction cs as [|c cs IH]; intros d Hpk.
  - exists []. rewrite app_nil_r. split; [done|]. intros a Hin. simpl.
    rewrite account_eta. by apply lookup_account_elem.
  - destruct (step_ledger d c Hpk) as (new1 & Hp1 & Hb1).
    destruct (IH (step d c) (step_pk d c Hpk)) as (new2 & Hp2 & Hb2).
    exists (new1 ++ new2). unfold run in *. simpl.
    split; [by rewrite Hp2, Hp1, app_assoc|].
    intros a Hin. pose proof (Hb1 a Hin) as H1.
    apply lookup_account_Some in H1 as [H1 _].
    pose proof (Hb2 _ H1) as H2. simpl in H2. rewrite H2.
    unfold apply_payments. by rewrite foldl_app.
Qed.

Lemma ledger_consistency_witness :
  let cs := [mkCall no_faults "bob123" "alice456" (NewFromInt 10);
             mkCall no_faults "alice456" "eve789" (NewFromInt 1);
             mkCall no_faults "alice456" "bob123" (mkDecimal 5 (-1))] in
  ∃ new,
    payments (run init_db cs) = payments init_db ++ new ∧
    ∀ a, a ∈ accounts init_db →
      lookup_account (ID a) (accounts (run init_db cs)) =
        Some (mkAccount (ID a) (apply_payments (ID a) (Balance a) new)
                (Currency a)).
Proof.
  intros cs. apply (ledger_consistency init_db cs).
  apply (bool_decide_unpack _). by vm_compute.
Defined.

(** X6.  Payment identifiers are never reused: along any run the
    records stay in the order of strictly growing identifiers, no two
    share one, none exceeds the sequence, and the sequence never goes
    back, not even when a call fails after drawing from it. *)
Theorem payment_ids_never_reused d cs :
  payments_ordered d →
  payments_ordered (run d cs) ∧
  NoDup (PaymentID <$> payments (run d cs)) ∧
  (payments_id_seq d ≤ payments_id_seq (run d cs))%Z.
Proof.
  intros Hd. pose proof (run_payments_ordered d cs Hd) as Hr.
  split; [done|]. split.
  - destruct Hr as [Hs _]. clear Hd.
    induction Hs as [|p l Hs IH Hp]; [constructor|].
    rewrite fmap_cons. apply NoDup_cons. split; [|done].
    intros (q & Hq & Hin)%list_elem_of_fmap.
    rewrite Forall_forall in Hp. apply Hp in Hin. unfold before in Hin. lia.
  - clear Hd Hr. revert d. unfold run.
    induction cs as [|c cs IH]; intros d; simpl; [lia|].
    etrans; [|apply IH]. unfold step.
    destruct (send _ _ _ _ d) as [[err d'] tr] eqn:Hs. simpl.
    by eapply send_seq.
Qed.

Lemma payment_ids_never_reused_witness :
  let cs := [mkCall (mkFaults None None None None None None None (Some "lost"))
               "bob123" "alice456" (NewFromInt 10);
             mkCall no_faults "bob123" "alice456" (NewFromInt 10)] in
  payments_ordered (run init_db cs) ∧
  NoDup (PaymentID <$> payments (run init_db cs)) ∧
  (payments_id_seq init_db ≤ payments_id_seq (run init_db cs))%Z.
Proof.
  intros cs. apply (payment_ids_never_reused init_db cs).
  split; simpl; constructor.
Defined.

(** ** The money in each currency *)

Section totals.

Local Open Scope Z_scope.

Implicit Types (t : list Account) (a : Account) (e : Z).

Lemma Equal_refl b : Equal b b = true.
Proof. apply (Equal_coeff (exp b)); [lia..|done]. Qed.

Lemma Equal_trans (x y z : Decimal) :
  Equal x y = true → Equal y z = true → Equal x z = true.
Proof.
  set (e := Z.min (exp x) (Z.min (exp y) (exp z))).
  intros H1%(Equal_coeff e) H2%(Equal_coeff e); [|unfold e; lia..].
  apply (Equal_coeff e); [unfold e; lia..|]. congruence.
Qed.

Lemma floor_exp_le e0 t : floor_exp e0 t <= e0.
Proof. induction t as [|a t IH]; simpl; lia. Qed.

Lemma floor_exp_elem e0 t a : a ∈ t → floor_exp e0 t <= exp (Balance a).
Proof.
  induction t as [|b t IH]; [by intros ?%elem_of_nil|].
  intros [->|Hin]%elem_of_cons; simpl; [lia|]. specialize (IH Hin). lia.
Qed.

Lemma coeff_at_foldl e z t :
  e <= exp z → (∀ a, a ∈ t → e <= exp (Balance a)) →
  e <= exp (foldl (λ s a, Add s (Balance a)) z t) ∧
  coeff_at e (foldl (λ s a, Add s (Balance a)) z t) =
    coeff_at e z + coeff_sum e t.
Proof.
  revert z. induction t as [|a t IH]; intros z Hz Ht; simpl.
  - split; [done|lia].
  - assert (Ha : e <= exp (Balance a)) by (apply Ht; by left).
    destruct (IH (Add z (Balance a))) as [IH1 IH2].
    { rewrite exp_Add. lia. }
    { intros b Hb. apply Ht. by right. }
    split; [done|]. rewrite IH2, coeff_at_Add by done. lia.
Qed.

Lemma update_balance_absent b id t :
  (∀ a, a ∈ t → ID a ≠ id) → update_balance b id t = t.
Proof.
  intros Ht. unfold update_balance.
  induction t as [|a t IH]; [done|]. rewrite fmap_cons.
  rewrite decide_False by (apply Ht; by left).
  f_equal. apply IH. intros c Hc. apply Ht. by right.
Qed.

Lemma coeff_sum_update e currency b id t src :
  NoDup (ID <$> t) → src ∈ t → ID src = id →
  coeff_sum e (filter (λ a, Currency a = currency) (update_balance b id t)) =
    coeff_sum e (filter (λ a, Currency a = currency) t)
    + (if decide (Currency src = currency)
       then coeff_at e b - coeff_at e (Balance src) else 0).
Proof.
  intros Hnd Hin Hid. induction t as [|a t IH]; [by apply elem_of_nil in Hin|].
  rewrite fmap_cons in Hnd. apply NoDup_cons in Hnd as [Ha Hnd].
  apply elem_of_cons in Hin as [->|Hin].
  - unfold update_balance. rewrite fmap_cons, decide_True by done.
    fold (update_balance b id t).
    rewrite update_balance_absent.
    2:{ intros c Hc Heq. apply Ha. rewrite Hid, <- Heq.
        by apply list_elem_of_fmap_2. }
    rewrite !filter_cons. simpl.
    destruct (decide (Currency a = currency)); simpl; lia.
  - assert (ID a ≠ id).
    { intros Heq. apply Ha. rewrite Heq, <- Hid. by apply list_elem_of_fmap_2. }
    unfold update_balance. rewrite fmap_cons, decide_False by done.
    fold (update_balance b id t).
    rewrite !filter_cons.
    destruct (decide (Currency a = currency)); simpl; rewrite IH by done; lia.
Qed.

Lemma total_balance_coeff e currency t :
  e <= 0 → (∀ a, a ∈ t → e <= exp (Balance a)) →
  e <= exp (total_balance currency t) ∧
  coeff_at e (total_balance currency t) =
    coeff_sum e (filter (λ a, Currency a = currency) t).
Proof.
  intros He Ht. unfold total_balance.
  destruct (coeff_at_foldl e (NewFromInt 0)
              (filter (λ a, Currency a = currency) t)) as [H1 H2].
  - simpl. lia.
  - intros a [_ Ha]%list_elem_of_filter. by apply Ht.
  - split; [done|]. rewrite H2. unfold coeff_at at 1. simpl. lia.
Qed.

Lemma step_total d c currency :
  pk_accounts d →
  Equal (total_balance currency (accounts (step d c)))
        (total_balance currency (accounts d)) = true.
Proof.
  intros Hpk. unfold step.
  destruct (send _ _ _ _ d) as [[[err|] d'] tr] eqn:Hs; simpl.
  { apply send_Some in Hs as [-> _]. apply Equal_refl. }
  apply send_None in Hs
    as ((_ & _ & Hne & _) & src & dst & [Hsin Hsid] & [Hdin Hdid]
        & Hcur & _ & -> & _).
  simpl. set (amount := call_amount c) in *.
  set (from := call_from c) in *. set (to := call_to c) in *.
  set (t1 := update_balance (Sub (Balance src) amount) from (accounts d)).
  set (t2 := update_balance (Add (Balance dst) amount) to t1).
  set (e := floor_exp (floor_exp (Z.min 0 (exp amount)) (accounts d)) t2).
  assert (He0 : e <= Z.min 0 (exp amount)).
  { unfold e. etrans; [apply floor_exp_le|]. apply floor_exp_le. }
  assert (Het : ∀ a, a ∈ accounts d → e <= exp (Balance a)).
  { intros a Ha. unfold e. etrans; [apply floor_exp_le|].
    by apply floor_exp_elem. }
  assert (Het2 : ∀ a, a ∈ t2 → e <= exp (Balance a)).
  { intros a Ha. by apply floor_exp_elem. }
  destruct (total_balance_coeff e currency (accounts d)) as [E1 C1];
    [lia|done|].
  destruct (total_balance_coeff e currency t2) as [E2 C2]; [lia|done|].
  apply (Equal_coeff e); [done..|]. rewrite C1, C2.
  assert (Hd1 : dst ∈ t1).
  { unfold t1, update_balance. apply list_elem_of_fmap. exists dst.
    split; [|done]. by rewrite decide_False by congruence. }
  unfold t2. rewrite (coeff_sum_update e currency _ to t1 dst);
    [|unfold t1; by rewrite update_balance_ids|done..].
  unfold t1. rewrite (coeff_sum_update e currency _ from (accounts d) src)
    by done.
  rewrite <- Hcur.
  destruct (decide (Currency src = currency)); [|lia].
  rewrite coeff_at_Add, coeff_at_Sub by (try apply Het; try lia; done). lia.
Qed.

End totals.

(** X7.  Money is neither made nor lost: after any run of calls the
    balances of each currency add up to what they added up to before
    (in the sense of [Decimal.Equal]). *)
Theorem total_balance_conserved d cs currency :
  pk_accounts d →
  Equal (total_balance currency (accounts (run d cs)))
        (total_balance currency (accounts d)) = true.
Proof.
  revert d. unfold run. induction cs as [|c cs IH]; intros d Hpk; simpl.
  - apply Equal_refl.
  - eapply Equal_trans; [apply IH; by apply step_pk|by apply step_total].
Qed.

Lemma total_balance_conserved_witness :
  Equal
    (total_balance "USD"
       (accounts (run init_db
          [mkCall no_faults "bob123" "alice456" (mkDecimal 5 (-1));
           mkCall no_faults "alice456" "bob123" (mkDecimal 25 (-2))])))
    (total_balance "USD" (accounts init_db)) = true.
Proof.
  apply (total_balance_conserved init_db).
  apply (bool_decide_unpack _). by vm_compute.
Defined.

(** ** Sending the money back *)

Section reverse.

Lemma IsNegative_Equal (x y : Decimal) :
  Equal x y = true → IsNegative x = IsNegative y.
Proof.
  set (e := Z.min (exp x) (exp y)).
  intros H%(Equal_coeff e); [|unfold e; lia..].
  apply eq_true_iff_eq.
  rewrite (IsNegative_coeff e x), (IsNegative_coeff e y) by (unfold e; lia).
  by rewrite H.
Qed.

Lemma lookup_account_updated2 b1 b2 id1 id2 (t : list Account) a1 a2 :
  id1 ≠ id2 →
  lookup_account id1 t = Some a1 → lookup_account id2 t = Some a2 →
  lookup_account id1 (update_balance b2 id2 (update_balance b1 id1 t))
    = Some (mkAccount id1 b1 (Currency a1)) ∧
  lookup_account id2 (update_balance b2 id2 (update_balance b1 id1 t))
    = Some (mkAccount id2 b2 (Currency a2)).
Proof.
  intros Hne H1 H2. split.
  - rewrite lookup_account_update_ne by done.
    by apply lookup_account_update_eq.
  - apply lookup_account_update_eq. by rewrite lookup_account_update_ne.
Qed.

End reverse.

(** X8.  A transfer can be undone.  After a successful transfer from a
    database without negative balances, the transfer of the same
    amount in the other direction succeeds when the driver meets no
    fault, and leaves every account with its currency and with a
    balance equal to the one it had at the start. *)
Theorem reverse_transfer_restores φ φ' from to amount d :
  pk_accounts d → nonneg d → reads_ok φ' → writes_ok φ' →
  (send φ from to amount d).1.1 = None →
  (send φ' to from amount (send φ from to amount d).1.2).1.1 = None ∧
  ∀ a, a ∈ accounts d →
    ∃ a'',
      lookup_account (ID a)
        (accounts (send φ' to from amount (send φ from to amount d).1.2).1.2)
        = Some a'' ∧
      Currency a'' = Currency a ∧
      Equal (Balance a'') (Balance a) = true.
Proof.
  intros Hpk Hnn Hr Hw Hok.
  destruct (send φ from to amount d) as [[err d'] tr] eqn:Hs.
  simpl in Hok. subst err. simpl.
  apply send_None in Hs
    as ((H1 & H2 & Hne & Hpos) & src & dst & [Hsin Hsid] & [Hdin Hdid]
        & Hcur & Hneg & -> & _).
  assert (Hls : lookup_account from (accounts d) = Some src)
    by (rewrite <- Hsid; by apply lookup_account_elem).
  assert (Hld : lookup_account to (accounts d) = Some dst)
    by (rewrite <- Hdid; by apply lookup_account_elem).
  destruct (lookup_account_updated2 (Sub (Balance src) amount)
              (Add (Balance dst) amount) from to (accounts d) src dst
              Hne Hls Hld) as [Hf1 Ht1].
  set (d1 := mkDB _ _ _).
  assert (Hpk1 : pk_accounts d1).
  { unfold pk_accounts, d1. simpl. by rewrite !update_balance_ids. }
  assert (Hback : IsNegative (Sub (Add (Balance dst) amount) amount) = false).
  { rewrite (IsNegative_Equal _ (Balance dst)) by apply Equal_Sub_Add.
    by apply (proj1 (Forall_forall _ _) Hnn). }
  pose proof (send_commits φ' to from amount d1 _ _ Hr Hw Hpk1 H2 H1
                (not_eq_sym Hne) Hpos Ht1 Hf1 (eq_sym Hcur) Hback) as Hs2.
  simpl in Hs2. rewrite Hs2. simpl. split; [done|].
  assert (Hne' : to ≠ from) by congruence.
  destruct (lookup_account_updated2
              (Sub (Add (Balance dst) amount) amount)
              (Add (Sub (Balance src) amount) amount) to from
              (accounts d1) _ _ Hne' Ht1 Hf1) as [Ht2 Hf2].
  simpl in Ht2, Hf2.
  intros a Hin.
  destruct (decide (ID a = from)) as [Hf|Hf].
  { assert (a = src) as -> by (apply (pk_unique d); congruence).
    rewrite Hf. eexists. split; [exact Hf2|]. simpl.
    split; [done|apply Equal_Add_Sub]. }
  destruct (decide (ID a = to)) as [Ht|Ht].
  { assert (a = dst) as -> by (apply (pk_unique d); congruence).
    rewrite Ht. eexists. split; [exact Ht2|]. simpl.
    split; [done|apply Equal_Sub_Add]. }
  exists a. unfold d1. simpl.
  rewrite !lookup_account_update_ne by congruence.
  split; [by apply lookup_account_elem|]. split; [done|apply Equal_refl].
Qed.

Lemma reverse_transfer_restores_witness :
  (send no_faults "alice456" "bob123" (mkDecimal 5 (-1))
     (send no_faults "bob123" "alice456" (mkDecimal 5 (-1)) init_db).1.2).1.1
    = None ∧
  ∀ a, a ∈ accounts init_db →
    ∃ a'',
      lookup_account (ID a)
        (accounts
           (send no_faults "alice456" "bob123" (mkDecimal 5 (-1))
              (send no_faults "bob123" "alice456" (mkDecimal 5 (-1))
                 init_db).1.2).1.2)
        = Some a'' ∧
      Currency a'' = Currency a ∧
      Equal (Balance a'') (Balance a) = true.
Proof.
  apply (reverse_transfer_restores no_faults no_faults "bob123" "alice456"
           (mkDecimal 5 (-1)) init_db).
  - apply (bool_decide_unpack _). by vm_compute.
  - unfold nonneg. simpl. by repeat constructor.
  - by repeat split.
  - by repeat split.
  - reflexivity.
Defined.

(** ** The two listings *)

Section reads.

Lemma getAccounts_loop_outcome φ i (l : list Account) acc :
  getAccounts_loop φ i (row_of_account <$> l) acc =
    match scan_err φ with
    | Some (j, msg) =>
        if decide (i ≤ j < i + length l) then Err (ErrDriver msg)
        else Ok (acc ++ l)
    | None => Ok (acc ++ l)
    end.
Proof.
  destruct (scan_err φ) as [[j msg]|] eqn:Hs;
    [|by apply getAccounts_loop_no_fault].
  revert i acc. induction l as [|[id b c] l IH]; intros i acc; simpl.
  - rewrite app_nil_r. by rewrite decide_False by lia.
  - rewrite Hs. destruct (decide (i = j)) as [->|Hij].
    + by rewrite decide_True by lia.
    + rewrite IH, <- app_assoc. simpl.
      repeat case_decide; try done; lia.
Qed.

Lemma ListPayments_loop_outcome φ i (l : list Payment) acc :
  ListPayments_loop φ i (row_of_payment <$> l) acc =
    match scan_err φ with
    | Some (j, msg) =>
        if decide (i ≤ j < i + length l) then Err (ErrDriver msg)
        else Ok (acc ++ l)
    | None => Ok (acc ++ l)
    end.
Proof.
  destruct (scan_err φ) as [[j msg]|] eqn:Hs;
    [|by apply ListPayments_loop_no_fault].
  revert i acc. induction l as [|[id f t amt] l IH]; intros i acc; simpl.
  - rewrite app_nil_r. by rewrite decide_False by lia.
  - rewrite Hs. destruct (decide (i = j)) as [->|Hij].
    + by rewrite decide_True by lia.
    + rewrite IH, <- app_assoc. simpl.
      repeat case_decide; try done; lia.
Qed.

Lemma delivered_prefix {A} φ (l : list A) : delivered φ l `prefix_of` l.
Proof. unfold delivered. destruct (next_stop φ); [apply prefix_take|done]. Qed.

Lemma delivered_payments φ (l : list Payment) :
  delivered φ (row_of_payment <$> l) = row_of_payment <$> delivered φ l.
Proof. unfold delivered. destruct (next_stop φ); [|done]. by rewrite fmap_take. Qed.

(** What [ListAccounts] does, in one equation. *)
Lemma ListAccounts_run φ w :
  ListAccounts φ w =
    (match query_err φ with
     | Some msg => Err (ErrDriver msg)
     | None => getAccounts φ (row_of_account
                                <$> delivered φ (merge_sort by_id (accounts (db w))))
     end, w).
Proof.
  unfold ListAccounts, db_Query_accounts. unfold_M.
  destruct (query_err φ); simpl; [done|]. by rewrite delivered_accounts.
Qed.

Lemma ListPayments_run φ w :
  ListPayments φ w =
    (match query_err φ with
     | Some msg => Err (ErrDriver msg)
     | None => ListPayments_loop φ 0
                 (row_of_payment <$> delivered φ (select_payments (payments (db w))))
                 []
     end, w).
Proof.
  unfold ListPayments, db_Query_payments. unfold_M.
  destruct (query_err φ); simpl; [done|]. by rewrite delivered_payments.
Qed.

Lemma ListAccounts_outcome φ w :
  (ListAccounts φ w).2 = w ∧
  Sorted by_id (merge_sort by_id (accounts (db w))) ∧
  merge_sort by_id (accounts (db w)) ≡ₚ accounts (db w) ∧
  match (ListAccounts φ w).1 with
  | Ok l =>
      l `prefix_of` merge_sort by_id (accounts (db w)) ∧
      (next_stop φ = None → l = merge_sort by_id (accounts (db w)))
  | Err e =>
      ∃ msg, e = ErrDriver msg ∧
        (query_err φ = Some msg ∨
         ∃ i, scan_err φ = Some (i, msg) ∧ i < length (accounts (db w)))
  end.
Proof.
  rewrite ListAccounts_run. simpl.
  split; [done|]. split; [apply Sorted_merge_sort, _|].
  split; [apply merge_sort_Permutation|].
  destruct (query_err φ) as [msg|] eqn:Hq; [eauto|].
  unfold getAccounts. rewrite getAccounts_loop_outcome. simpl.
  pose proof (delivered_prefix φ (merge_sort by_id (accounts (db w)))) as Hp.
  destruct (scan_err φ) as [[j msg]|] eqn:Hs.
  - case_decide as Hj.
    + exists msg. split; [done|]. right. exists j. split; [done|].
      apply prefix_length in Hp.
      rewrite (Permutation_length (merge_sort_Permutation _ _)) in Hp. lia.
    + split; [done|]. unfold delivered. by intros ->.
  - split; [done|]. unfold delivered. by intros ->.
Qed.

Lemma ListPayments_outcome φ w :
  (ListPayments φ w).2 = w ∧
  match (ListPayments φ w).1 with
  | Ok l =>
      l `prefix_of` select_payments (payments (db w)) ∧
      (next_stop φ = None → l = select_payments (payments (db w)))
  | Err e =>
      ∃ msg, e = ErrDriver msg ∧
        (query_err φ = Some msg ∨
         ∃ i, scan_err φ = Some (i, msg) ∧ i < length (payments (db w)))
  end.
Proof.
  rewrite ListPayments_run. simpl. split; [done|].
  destruct (query_err φ) as [msg|] eqn:Hq; [eauto|].
  rewrite ListPayments_loop_outcome. simpl.
  pose proof (delivered_prefix φ (select_payments (payments (db w)))) as Hp.
  destruct (scan_err φ) as [[j msg]|] eqn:Hs.
  - case_decide as Hj.
    + exists msg. split; [done|]. right. exists j. split; [done|].
      apply prefix_length in Hp. unfold select_payments in *.
      rewrite (Permutation_length (merge_sort_Permutation _ _)) in Hp. lia.
    + split; [done|]. unfold delivered. by intros ->.
  - split; [done|]. unfold delivered. by intros ->.
Qed.

End reads.

Global Instance by_id_trans : Transitive by_id.
Proof. intros a b c. unfold by_id. apply transitivity. Qed.

(** X9.  [ListAccounts] only reads: the world it returns is the one it
    was given.  The accounts it returns are rows of the table, in the
    order of their identifiers: the first rows of the sorted table,
    all of them unless the cursor stopped early, so that an empty
    table gives an empty list and not an error.  When it fails, the
    error is the driver's, from the query or from the scan of a row
    that exists. *)
Theorem ListAccounts_reads φ w :
  (ListAccounts φ w).2 = w ∧
  match (ListAccounts φ w).1 with
  | Ok l =>
      l `prefix_of` merge_sort by_id (accounts (db w)) ∧
      (next_stop φ = None → l ≡ₚ accounts (db w)) ∧
      Sorted by_id l ∧
      (∀ a, a ∈ l → a ∈ accounts (db w))
  | Err e =>
      ∃ msg, e = ErrDriver msg ∧
        (query_err φ = Some msg ∨
         ∃ i, scan_err φ = Some (i, msg) ∧ i < length (accounts (db w)))
  end.
Proof.
  destruct (ListAccounts_outcome φ w) as (Hw & Hs & Hp & Hr).
  split; [done|]. destruct (ListAccounts φ w).1 as [l|e]; [|done].
  destruct Hr as [[k Hpre] Hall]. split; [by exists k|].
  split; [by intros ->%Hall|]. split.
  - apply Sorted_StronglySorted in Hs; [|apply _].
    rewrite Hpre in Hs. apply StronglySorted_app_1_l in Hs.
    by apply StronglySorted_Sorted.
  - intros a Ha. rewrite <- Hp, Hpre. apply elem_of_app. by left.
Qed.

(** X10.  [ListPayments] only reads as well.  The records it returns
    are records of the table, in the order of their identifiers: the
    first of the sorted table, all of them unless the cursor stopped
    early.  When it fails, the error is the driver's, from the query
    or from the scan of a row that exists. *)
Theorem ListPayments_reads φ w :
  (ListPayments φ w).2 = w ∧
  match (ListPayments φ w).1 with
  | Ok l =>
      l `prefix_of` select_payments (payments (db w)) ∧
      (next_stop φ = None → l ≡ₚ payments (db w)) ∧
      Sorted by_payment_id l ∧
      (∀ p, p ∈ l → p ∈ payments (db w))
  | Err e =>
      ∃ msg, e = ErrDriver msg ∧
        (query_err φ = Some msg ∨
         ∃ i, scan_err φ = Some (i, msg) ∧ i < length (payments (db w)))
  end.
Proof.
  destruct (ListPayments_outcome φ w) as (Hw & Hr).
  split; [done|]. destruct (ListPayments φ w).1 as [l|e]; [|done].
  destruct Hr as [[k Hpre] Hall]. split; [by exists k|].
  pose proof (merge_sort_Permutation by_payment_id (payments (db w))) as Hp.
  fold (select_payments (payments (db w))) in Hp.
  split; [by intros ->%Hall|]. split.
  - pose proof (StronglySorted_merge_sort by_payment_id (payments (db w)))
      as Hs.
    fold (select_payments (payments (db w))) in Hs.
    rewrite Hpre in Hs. apply StronglySorted_app_1_l in Hs.
    by apply StronglySorted_Sorted.
  - intros p Hin. rewrite <- Hp, Hpre. apply elem_of_app. by left.
Qed.

(** ** The handler [main] serves *)

(** X11.  [POST /payments].  A body the decoder rejects never reaches
    the service: the answer is 400 "unable to parse request", written
    without a content type, the database is untouched and only the
    transport logs.  Otherwise the service is called once, with the
    fields of the request, and logs once; the answer is 200
    with the status "Payment successfully sent" exactly when
    [SendPayment] returned [nil], and else the status and text of
    [encodeError]; the status "Payment failed" is never written, and
    the handler never panics. *)
Theorem POST_payments_response φ decoded d out :
  let '(o, d', out') := wallet_handler φ (POST_payments decoded) d out in
  match decoded with
  | None =>
      o = Returns
            (mkHttp None 400
               [("error", JScalar (JString "unable to parse request"))]) ∧
      d' = d ∧
      out' = out ++ [[("component", LogString "HTTP");
                      ("err", LogError (Some ErrMalformedJSON))]]
  | Some req =>
      let '(err, d1, _) :=
        send φ (req_FromAccountID req) (req_ToAccountID req) (req_Amount req) d in
      d' = d1 ∧
      out' = out ++ [[("method", LogString "SendPayment");
                      ("fromAccountID", LogString (req_FromAccountID req));
                      ("toAccountID", LogString (req_ToAccountID req));
                      ("amount", LogDecimal (req_Amount req));
                      ("err", LogError err)]] ∧
      o = Returns
            (mkHttp (Some "application/json; charset=utf-8")
               match err with
               | None => 200
               | Some e => codeFrom (Some e)
               end
               match err with
               | None =>
                   [("status", JScalar (JString "Payment successfully sent"))]
               | Some e =>
                   [("error",
                     JScalar (JString match e with
                                      | ErrDriver _ => "internal server error"
                                      | _ => Error e
                                      end))]
               end)
  end.
Proof.
  destruct decoded as [req|]; [|done].
  unfold wallet_handler, send. simpl.
  unfold makeSendPaymentEndpoint. simpl.
  destruct (SendPayment φ _ _ _ _) as [[u|e] w]; simpl; [done|].
  by destruct e.
Qed.

(** X12.  [GET /accounts] never changes the database and calls the
    service once.  The answer is 200 with the accounts sorted by
    identifier (all of them unless the cursor stopped early), each
    with its identifier, balance and currency; or, when the read
    fails, 500 with the text "internal server error" and nothing of
    what the driver said. *)
Theorem GET_accounts_response φ d out :
  let '(o, d', out') := wallet_handler φ GET_accounts d out in
  d' = d ∧
  ∃ err,
    out' = out ++ [[("method", LogString "ListAccounts");
                    ("err", LogError err)]] ∧
    match err with
    | None =>
        ∃ l, l `prefix_of` merge_sort by_id (accounts d) ∧
             (next_stop φ = None → l = merge_sort by_id (accounts d)) ∧
             o = Returns
                   (mkHttp (Some "application/json; charset=utf-8") 200
                      [("accounts", JObjects (Account_json <$> l))])
    | Some e =>
        (∃ msg, e = ErrDriver msg) ∧
        o = Returns
              (mkHttp (Some "application/json; charset=utf-8") 500
                 [("error", JScalar (JString "internal server error"))])
    end.
Proof.
  unfold wallet_handler. simpl. unfold makeListAccountsEndpoint. simpl.
  destruct (ListAccounts_outcome φ (mkWorld d None [])) as (Hw & _ & _ & Hr).
  destruct (ListAccounts φ _) as [[l|e] w]; simpl in *; subst w.
  - split; [done|]. exists None. split; [done|].
    destruct Hr as [Hp Hall]. eauto.
  - split; [done|]. exists (Some e). split; [done|].
    destruct Hr as (msg & -> & _). eauto.
Qed.

(** X13.  [GET /payments] never changes the database and calls the
    service once.  The answer is 200 with, for each record in the
    order of the identifiers (all records unless the cursor stopped
    early), its outgoing and its incoming entry; or, when the read
    fails, 500 with the text "internal server error" and nothing of
    what the driver said. *)
Theorem GET_payments_response φ d out :
  let '(o, d', out') := wallet_handler φ GET_payments d out in
  d' = d ∧
  ∃ err,
    out' = out ++ [[("method", LogString "ListPayments");
                    ("err", LogError err)]] ∧
    match err with
    | None =>
        ∃ l, l `prefix_of` select_payments (payments d) ∧
             (next_stop φ = None → l = select_payments (payments d)) ∧
             o = Returns
                   (mkHttp (Some "application/json; charset=utf-8") 200
                      [("payments",
                        JObjects (paymentItem_json <$> payment_items l))])
    | Some e =>
        (∃ msg, e = ErrDriver msg) ∧
        o = Returns
              (mkHttp (Some "application/json; charset=utf-8") 500
                 [("error", JScalar (JString "internal server error"))])
    end.
Proof.
  unfold wallet_handler. simpl. unfold makeListPaymentsEndpoint. simpl.
  destruct (ListPayments_outcome φ (mkWorld d None [])) as (Hw & Hr).
  destruct (ListPayments φ _) as [[l|e] w]; simpl in *; subst w.
  - split; [done|]. exists None. split; [done|].
    destruct Hr as [Hp Hall]. eauto.
  - split; [done|]. exists (Some e). split; [done|].
    destruct Hr as (msg & -> & _). eauto.
Qed.

(** X14.  A request that fails validation is answered without a call
    on the database: 400 "two accounts must be specified" for an empty
    identifier, 403 "cannot send a payment to the same account" for
    equal identifiers, 403 "invalid amount" for an amount that is zero
    or negative; the database is as before and the service logs the
    error. *)
Theorem POST_payments_rejected φ req d out :
  let answer (code : Z) (e : error) :=
    (Returns (mkHttp (Some "application/json; charset=utf-8") code
                [("error", JScalar (JString (Error e)))]),
     d,
     out ++ [[("method", LogString "SendPayment");
              ("fromAccountID", LogString (req_FromAccountID req));
              ("toAccountID", LogString (req_ToAccountID req));
              ("amount", LogDecimal (req_Amount req));
              ("err", LogError (Some e))]]) in
  (req_FromAccountID req = "" ∨ req_ToAccountID req = "" →
     wallet_handler φ (POST_payments (Some req)) d out
     = answer 400%Z ErrAccountNotSpecified) ∧
  (req_FromAccountID req ≠ "" →
   req_FromAccountID req = req_ToAccountID req →
     wallet_handler φ (POST_payments (Some req)) d out
     = answer 403%Z ErrSameAccount) ∧
  (req_FromAccountID req ≠ "" → req_ToAccountID req ≠ "" →
   req_FromAccountID req ≠ req_ToAccountID req →
   (value (req_Amount req) ≤ 0)%Z →
     wallet_handler φ (POST_payments (Some req)) d out
     = answer 403%Z ErrInvalidAmount).
Proof.
  destruct req as [from to amount]. simpl.
  unfold wallet_handler. simpl. unfold makeSendPaymentEndpoint. simpl.
  unfold SendPayment, fail. repeat split.
  - intros [->| ->]; [done|]. by rewrite orb_true_r.
  - intros H1%String.eqb_neq <-. by rewrite H1, String.eqb_refl.
  - intros H1%String.eqb_neq H2%String.eqb_neq H3%String.eqb_neq
      H4%IsPositive_false.
    by rewrite H1, H2, H3, H4.
Qed.

Lemma POST_payments_rejected_witness :
  wallet_handler no_faults
    (POST_payments (Some (mkSendPaymentRequest "bob123" "bob123" (NewFromInt 1))))
    init_db []
  = (Returns (mkHttp (Some "application/json; charset=utf-8") 403
                [("error",
                  JScalar (JString "cannot send a payment to the same account"))]),
     init_db,
     [[("method", LogString "SendPayment");
       ("fromAccountID", LogString "bob123");
       ("toAccountID", LogString "bob123");
       ("amount", LogDecimal (NewFromInt 1));
       ("err", LogError (Some ErrSameAccount))]]).
Proof.
  by apply (POST_payments_rejected no_faults
              (mkSendPaymentRequest "bob123" "bob123" (NewFromInt 1))
              init_db []).
Defined.

(** X15.  [encodeResponse] never reaches the panic of [encodeError]:
    for every response it writes the JSON content type; the status is
    200, with the response itself as body, exactly when the response
    carries no error, and otherwise the status of [codeFrom], never
    200, with a body that has the single member [error]. *)
Theorem encodeResponse_total r :
  ∃ code doc,
    encodeResponse r =
      Returns (mkHttp (Some "application/json; charset=utf-8") code doc) ∧
    match errorer r with
    | None => code = 200%Z ∧ doc = response_json r
    | Some e =>
        code = codeFrom (Some e) ∧ code ≠ 200%Z ∧
        ∃ msg, doc = [("error", JScalar (JString msg))]
    end.
Proof.
  unfold encodeResponse. destruct (errorer r) as [e|] eqn:He.
  - do 2 eexists. split; [reflexivity|]. simpl.
    split; [done|]. split; [by destruct e|]. eauto.
  - do 2 eexists. split; [reflexivity|]. done.
Qed.

(** ** A cursor that stops early *)

Lemma two_elements {A} (l : list A) a b : a ∈ l → b ∈ l → a ≠ b → 2 ≤ length l.
Proof.
  destruct l as [|x [|y l]]; simpl; [by intros ?%elem_of_nil| |lia].
  intros ->%list_elem_of_singleton ->%list_elem_of_singleton. done.
Qed.

(** X16.  [getAccounts] does not look at [rows.Err()].  When the
    cursor of the locking query stops before its second row and no
    scan fails, [SendPayment] finds at most one account and returns
    [ErrAccountNotFound], whatever the table holds; the database is
    left as it was. *)
Theorem truncated_cursor_reports_not_found φ from to amount d k :
  begin_err φ = None → query_err φ = None → scan_err φ = None →
  next_stop φ = Some k → k < 2 →
  from ≠ "" → to ≠ "" → from ≠ to → IsPositive amount = true →
  (send φ from to amount d).1 = (Some ErrAccountNotFound, d).
Proof.
  intros Hb Hq Hs Hn Hk H1 H2 H3 H4.
  destruct (validation_passes _ _ _ H1 H2 H3 H4) as (V1 & V2 & V3).
  unfold send, SendPayment. rewrite V1, V2, V3. unfold_M.
  rewrite Hb, Hq. simpl. rewrite delivered_accounts.
  unfold getAccounts. rewrite getAccounts_loop_no_fault by done. simpl.
  set (l := delivered φ (select_accounts from to (accounts d))).
  assert (Hlen : length l ≤ 1).
  { unfold l, delivered. rewrite Hn, length_take. lia. }
  destruct (foldl _ ∅ l !! from) as [a2|] eqn:Hf; [|by destruct d].
  destruct (foldl _ ∅ l !! to) as [a3|] eqn:Ht; [|by destruct d].
  apply accountsByID_lookup in Hf as [[Hfin Hfid]|Hf];
    [|by rewrite lookup_empty in Hf].
  apply accountsByID_lookup in Ht as [[Htin Htid]|Ht];
    [|by rewrite lookup_empty in Ht].
  assert (Hne : a2 ≠ a3) by congruence.
  pose proof (two_elements l a2 a3 Hfin Htin Hne). lia.
Qed.

Lemma truncated_cursor_reports_not_found_witness :
  (send (mkFaults None None (Some 1) None None None None None)
     "bob123" "alice456" (NewFromInt 10) init_db).1
  = (Some ErrAccountNotFound, init_db).
Proof.
  apply (truncated_cursor_reports_not_found
           (mkFaults None None (Some 1) None None None None None)
           "bob123" "alice456" (NewFromInt 10) init_db 1);
    [reflexivity | reflexivity | reflexivity | reflexivity | lia
    | done | done | done | reflexivity].
Defined.
